(** * WordLadder: a shallow embedding of [WordLadder.py]

    The development follows the Python module top to bottom: the pattern
    index built by [Graph.__init__], the neighbour enumeration [unvisited],
    the cost-guided search [min_path], the distance function [hamming] and
    the driver [main].

    Modelling conventions.
    - A Python [str] is a [string]; a character is an [ascii].
    - A Python [dict] is a [gmap]; the tuple keys [(i, pattern)] of
      [word_patterns] are pairs [nat * string].
    - A raised exception is the [Raise] constructor of [result].
    - The [while] loop of [min_path] takes a fuel argument; [None] means the
      fuel ran out, and termination is a theorem.
    - [heapq] keeps a binary heap inside a list.  The items pushed by
      [min_path] are tuples [(int, str, list of str)], which Python orders
      totally (lexicographically), so [heappop] hands out the least item of
      the bag whatever the heap layout is.  The frontier is therefore a
      list used as a bag, and [heappop] extracts its least item
      ([heappop_least]). *)

From Stdlib Require Import Ascii String ZArith Lia.
From stdpp Require Import gmap strings list fin_maps fin_sets.

Local Open Scope nat_scope.

(* stdpp's solvers clear hypotheses by name and warn when one is gone. *)
Set Warnings "-clear-no-such-hyp".

(** ** Exceptions *)

Inductive exn : Type :=
| IndexError
| Exception (msg : string).

Inductive result (A : Type) : Type :=
| Ok (a : A)
| Raise (e : exn).
Arguments Ok {A} a.
Arguments Raise {A} e.

Definition rbind {A B} (m : result A) (k : A → result B) : result B :=
  match m with
  | Ok a => k a
  | Raise e => Raise e
  end.

Notation "x ←! m ; k" := (rbind m (λ x, k))
  (at level 20, m at level 100, k at level 200, only parsing).

(** ** Python indexing *)

(** [s[i]] on a string, for [i] taken from [range(...)] (never negative). *)
Definition str_index (s : string) (i : nat) : result ascii :=
  match String.get i s with
  | Some c => Ok c
  | None => Raise IndexError
  end.

(** [l[i]] on a list, with Python's wrap-around of negative indices. *)
Definition py_index {A} (l : list A) (i : Z) : result A :=
  let n := Z.of_nat (length l) in
  let j := if (i <? 0)%Z then (i + n)%Z else i in
  if (j <? 0)%Z then Raise IndexError
  else match l !! Z.to_nat j with
       | Some x => Ok x
       | None => Raise IndexError
       end.

(** ** [hamming] *)

Fixpoint hamming_loop (range : list nat) (start end_ : string) (counter : nat)
  : result nat :=
  match range with
  | [] => Ok counter
  | i :: range' =>
      a ←! str_index start i;
      b ←! str_index end_ i;
      hamming_loop range' start end_
        (if decide (a ≠ b) then counter + 1 else counter)
  end.

Definition hamming (start end_ : string) : result nat :=
  hamming_loop (seq 0 (String.length start)) start end_ 0.

(** ** [Graph] *)

Record Graph : Type := mkGraph {
  word_patterns : gmap (nat * string) (list string);
  size : nat
}.

(** [Graph.patterns]: the word with each position in turn replaced by [?],
    tagged with the position. *)
Definition patterns (word : string) : list (nat * string) :=
  (λ i, let letters := list_ascii_of_string word in
        (i, string_of_list_ascii (<[i:="?"%char]> letters)))
    <$> seq 0 (String.length word).

(** The body of the inner loop of [__init__]. *)
Definition add_pattern (word : string)
    (wp : gmap (nat * string) (list string)) (p : nat * string)
  : gmap (nat * string) (list string) :=
  let wp := match wp !! p with
            | None => <[p:=[]]> wp
            | Some _ => wp
            end in
  alter (λ bucket, bucket ++ [word]) p wp.

(** The body of the outer loop of [__init__]. *)
Definition add_word (size : nat)
    (wp : gmap (nat * string) (list string)) (word : string)
  : gmap (nat * string) (list string) :=
  if decide (String.length word ≠ size) then wp
  else foldl (add_pattern word) wp (patterns word).

(** [Graph.__init__]; [words] is the iteration sequence of the iterable. *)
Definition Graph_init (words : list string) (size : nat) : Graph :=
  {| word_patterns := foldl (add_word size) ∅ words; size := size |}.

(** [Graph.unvisited]. *)
Definition unvisited (g : Graph) (word : string) (visited : gmap string nat)
  : list string :=
  p ← patterns word;
  match word_patterns g !! p with
  | None => []
  | Some candidates => filter (λ cand, visited !! cand = None) candidates
  end.

(** ** The heap of [min_path] *)

Definition item : Type := nat * string * list string.

(** Python's tuple comparison on [(cost, word, path)]. *)
Definition item_compare (x y : item) : comparison :=
  let '(c1, w1, p1) := x in
  let '(c2, w2, p2) := y in
  match Nat.compare c1 c2 with
  | Eq => match String.compare w1 w2 with
          | Eq => list_compare String.compare p1 p2
          | c => c
          end
  | c => c
  end.

Definition item_lt (x y : item) : bool :=
  match item_compare x y with
  | Lt => true
  | _ => false
  end.

Fixpoint heap_min (x : item) (h : list item) : item :=
  match h with
  | [] => x
  | y :: h' => heap_min (if item_lt y x then y else x) h'
  end.

Fixpoint heap_remove (x : item) (h : list item) : list item :=
  match h with
  | [] => []
  | y :: h' => if decide (y = x) then h' else y :: heap_remove x h'
  end.

Definition heappush (h : list item) (x : item) : list item := x :: h.

(** [None] on the empty heap; [min_path] only pops when [len(frontier) > 0]. *)
Definition heappop (h : list item) : option (item * list item) :=
  match h with
  | [] => None
  | x :: h' => let m := heap_min x h' in Some (m, heap_remove m h)
  end.

(** ** The cost increment of [min_path] *)

(** The values the test [i == 'a' or 'e' or ...] ranges over. *)
Inductive pyval : Type :=
| PyBool (b : bool)
| PyStr (s : string).

Definition truthy (v : pyval) : bool :=
  match v with
  | PyBool b => b
  | PyStr s => bool_decide (s ≠ "")
  end.

(** [a or b]: [a] when it is truthy, else [b]. *)
Definition py_or (a b : pyval) : pyval := if truthy a then a else b.

(** [i == 'a' or 'e' or 'i' or 'o' or 'u' or 'y']. *)
Definition vowel_test (i : ascii) : pyval :=
  py_or (py_or (py_or (py_or (py_or
    (PyBool (bool_decide (i = "a"%char)))
    (PyStr "e")) (PyStr "i")) (PyStr "o")) (PyStr "u")) (PyStr "y").

(** The loop [for i,j in zipped] run on the accumulator [distance]. *)
Definition zipped_loop (zipped : list (ascii * ascii)) (distance : nat) : nat :=
  foldl (λ distance '(i, j),
           if decide (i ≠ j)
           then if truthy (vowel_test i) then distance + 1 else distance
           else distance)
        distance zipped.

(** Lines 94-98: zip the last two path entries and update [distance]. *)
Definition cost_increment (path : list string) (distance : nat) : result nat :=
  a ←! py_index path (Z.of_nat (length path) - 1);
  b ←! py_index path (Z.of_nat (length path) - 2);
  Ok (zipped_loop (zip (list_ascii_of_string a) (list_ascii_of_string b))
                  distance).

(** ** [min_path] *)

Record state : Type := mkState {
  visited : gmap string nat;
  frontier : list item
}.

(** The [for adjacent in ...] loop of one round. *)
Fixpoint expand (end_ : string) (path : list string) (adjacents : list string)
    (distance : nat) (st : state) : result (nat * state) :=
  match adjacents with
  | [] => Ok (distance, st)
  | adjacent :: rest =>
      distance ←! cost_increment path distance;
      h ←! hamming adjacent end_;
      let cost := distance + h in
      expand end_ path rest distance
        {| visited := <[adjacent:=cost]> (visited st);
           frontier := heappush (frontier st)
                         (cost, adjacent, path ++ [adjacent]) |}
  end.

Inductive step_result : Type :=
| Continue (st : state)
| Done (r : result (option (list string))).

(** One iteration of the [while] loop, the loop test included. *)
Definition step (g : Graph) (end_ : string) (st : state) : step_result :=
  match heappop (frontier st) with
  | None => Done (Ok None)
  | Some ((distance, word, path), frontier') =>
      if decide (word = end_) then Done (Ok (Some path))
      else
        match expand end_ path (unvisited g word (visited st)) distance
                {| visited := visited st; frontier := frontier' |} with
        | Raise e => Done (Raise e)
        | Ok (_, st') => Continue st'
        end
  end.

Fixpoint min_path_loop (fuel : nat) (g : Graph) (end_ : string) (st : state)
  : option (result (option (list string))) :=
  match fuel with
  | 0 => None
  | S fuel' =>
      match step g end_ st with
      | Done r => Some r
      | Continue st' => min_path_loop fuel' g end_ st'
      end
  end.

Definition initial (start : string) : state :=
  {| visited := ∅; frontier := heappush [] (0, start, [start]) |}.

Definition min_path (fuel : nat) (g : Graph) (start end_ : string)
  : option (result (option (list string))) :=
  min_path_loop fuel g end_ (initial start).

(** The state reached after [n] full rounds, when the loop runs that long. *)
Fixpoint run (g : Graph) (end_ : string) (n : nat) (st : state)
  : option state :=
  match n with
  | 0 => Some st
  | S n' =>
      match step g end_ st with
      | Done _ => None
      | Continue st' => run g end_ n' st'
      end
  end.

(** ** [main] *)

(** What [main] does to the world, in order. *)
Inductive event : Type :=
| EvOpenDictionary
| EvGraphInit (words : list string) (size : nat)
| EvMinPath (start end_ : string).

Section case_mapping.

(** [str.lower] and [str.upper] are Python's own (they follow the Unicode
    case mappings, which may change the length of a string); [main] is
    modelled for any pair of case mappings. *)
Variables (lower upper : string → string).

(** [main(start, end, words)].  [dictionary] stands for the set read from
    [Dictionary.txt] (stripped and lowercased); a Python [set] is a [gset]
    and iterating over it is [elements].  The result carries the log of
    events performed before it was produced. *)
Definition main (fuel : nat) (dictionary : gset string)
    (start end_ : string) (words : option (gset string))
  : option (list event * result string) :=
  let '(words, log) :=
    match words with
    | None => (dictionary, [EvOpenDictionary])
    | Some ws => (ws, [])
    end in
  let start := lower start in
  let end_ := lower end_ in
  if decide (String.length start ≠ String.length end_)
  then Some (log, Raise (Exception "Words must be the same length."))
  else
    let words := if decide (end_ ∉ words) then {[end_]} ∪ words else words in
    let graph := Graph_init (elements words) (String.length start) in
    let log := log ++ [EvGraphInit (elements words) (String.length start)] in
    match min_path fuel graph start end_ with
    | None => None
    | Some r =>
        let log := log ++ [EvMinPath start end_] in
        match r with
        | Raise e => Some (log, Raise e)
        | Ok None =>
            Some (log, Ok ("No word ladder exists from " +:+ upper start
                           +:+ " to " +:+ upper end_))
        | Ok (Some word_ladder) =>
            let words := foldl (λ words i, words +:+ upper i +:+ " ")
                               "" word_ladder in
            Some (log, Ok ("Shortest Word Ladder: " +:+ words))
        end
    end.

End case_mapping.

(** *** Case mappings to run [main] on *)

(** What [str.lower] and [str.upper] do on a word of ASCII characters. *)
Definition ascii_lower (c : ascii) : ascii :=
  let n := nat_of_ascii c in
  if (65 <=? n) && (n <=? 90) then ascii_of_nat (n + 32) else c.

Definition ascii_upper (c : ascii) : ascii :=
  let n := nat_of_ascii c in
  if (97 <=? n) && (n <=? 122) then ascii_of_nat (n - 32) else c.

Fixpoint str_map (f : ascii → ascii) (s : string) : string :=
  match s with
  | EmptyString => EmptyString
  | String c s' => String (f c) (str_map f s')
  end.

Definition lower_ascii : string → string := str_map ascii_lower.
Definition upper_ascii : string → string := str_map ascii_upper.

(** A lowercasing that lengthens a word, as [str.lower] does on the capital
    I with dot above (U+0130), whose lowercase form is the two code points
    U+0069 U+0307.  Characters are 8-bit here, so two of the codes that
    carry no ASCII letter stand for U+0130 and U+0307. *)
Definition capital_I_dot : ascii := "221"%char.
Definition combining_dot : ascii := "222"%char.

Fixpoint lower_dotted (s : string) : string :=
  match s with
  | EmptyString => EmptyString
  | String c s' =>
      if decide (c = capital_I_dot)
      then String "i" (String combining_dot (lower_dotted s'))
      else String (ascii_lower c) (lower_dotted s')
  end.

(** ** Specification-side notions *)

(** The number of positions at which two words differ (counted over the
    positions both words have). *)
Definition differing (a b : string) : nat :=
  length (filter (λ p : ascii * ascii, p.1 ≠ p.2)
            (zip (list_ascii_of_string a) (list_ascii_of_string b))).

(** The bucket the index is expected to hold under key [k]. *)
Definition bucket_of (words : list string) (size : nat) (k : nat * string)
  : list string :=
  filter (λ v, String.length v = size ∧ k ∈ patterns v) words.

(** [k = (i, p)] is the word [w] with position [i] masked. *)
Definition matches (w : string) (k : nat * string) : Prop :=
  k.1 < String.length w
  ∧ String.get k.1 k.2 = Some "?"%char
  ∧ ∀ j, j ≠ k.1 → String.get j k.2 = String.get j w.

(** The bucket stored under [k], empty when the key is absent. *)
Definition bucket (wp : gmap (nat * string) (list string)) (k : nat * string)
  : list string :=
  default [] (wp !! k).

(** A bound on the pops and pushes of one search: the first push, and for
    each indexed word at most [size * len(words)] candidates. *)
Definition search_bound (words : list string) (size : nat) : nat :=
  1 + size * length words * length words.

(** What a search state has left to do: the queued items, and a full round
    of candidates for every word that is not yet a key of [visited]. *)
Definition potential (words : list string) (size : nat) (st : state) : nat :=
  length (frontier st)
  + size * length words
    * base.size ((list_to_set words : gset string) ∖ dom (visited st)).

(** Every queued item carries a non-empty path. *)
Definition nonempty_paths (st : state) : Prop :=
  ∀ it : item, it ∈ frontier st → it.2 ≠ [].

(** The word [w] with position [i] replaced by the wildcard, as [patterns]
    builds it. *)
Definition masked (i : nat) (w : string) : string :=
  string_of_list_ascii (<[i:="?"%char]> (list_ascii_of_string w)).

(** [c] is a neighbour of [w] in the index: what [unvisited] hands out for
    [w] while nothing is visited. *)
Definition adjacent (g : Graph) (w c : string) : Prop :=
  c ∈ unvisited g w ∅.

(** Every neighbour of [w] is a key of [V]. *)
Definition closed (g : Graph) (V : gmap string nat) (w : string) : Prop :=
  ∀ c, adjacent g w c → c ∈ dom V.

(** Two words of one length that differ in exactly one position. *)
Definition one_letter (a b : string) : Prop :=
  String.length a = String.length b ∧ differing a b = 1.

(** A word ladder: consecutive words are one letter apart. *)
Definition ladder (path : list string) : Prop :=
  ∀ i a b, path !! i = Some a → path !! S i = Some b → one_letter a b.

(** Consecutive words of [path] are distinct neighbours in the index. *)
Definition chain (g : Graph) (path : list string) : Prop :=
  ∀ i a b, path !! i = Some a → path !! S i = Some b →
           adjacent g a b ∧ a ≠ b.

(** What the search keeps true of a queued item [(cost, word, path)]: the
    path runs from the start word to [word]; it is the start path, or the
    start word twice (then the start word has no new neighbour left), or a
    chain without repetition whose words after the first are keys of [V]
    (and again the start word has no new neighbour left). *)
Definition good_item (g : Graph) (start : string) (V : gmap string nat)
    (it : item) : Prop :=
  last it.2 = Some it.1.2
  ∧ head it.2 = Some start
  ∧ (it.2 = [start]
     ∨ (it.2 = [start; start] ∧ closed g V start)
     ∨ (it.1.2 ∈ dom V ∧ chain g it.2 ∧ NoDup it.2
        ∧ (∀ x, x ∈ tail it.2 → x ∈ dom V) ∧ closed g V start)).

(** What the search keeps true of a word it has met: the word is still
    queued, or it is not the end word and all its neighbours are keys. *)
Definition served (g : Graph) (end_ : string) (st : state) (w : string)
  : Prop :=
  (∃ D p, (D, w, p) ∈ frontier st)
  ∨ (w ≠ end_ ∧ closed g (visited st) w).

(** Occurrences of [w] in a list. *)
Definition occurrences (w : string) (l : list string) : nat :=
  length (filter (λ v, v = w) l).

Example min_path_cat_dog :
  min_path 10 (Graph_init ["cat"; "cot"; "cog"; "dog"] 3) "cat" "dog"
  = Some (Ok (Some ["cat"; "cot"; "cog"; "dog"])).
Proof. vm_compute. reflexivity. Qed.

Example min_path_aaa_bbb :
  min_path 10 (Graph_init ["aaa"; "bbb"] 3) "aaa" "bbb" = Some (Ok None).
Proof. vm_compute. reflexivity. Qed.

Example hamming_docstring :
  hamming "hello" "jelly" = Ok 2 ∧ hamming "fun" "ban" = Ok 2
  ∧ hamming "todd" "john" = Ok 3.
Proof. vm_compute. auto. Qed.

(** * Properties *)

(** ** Strings as lists of characters *)

Lemma string_get_lookup (s : string) (i : nat) :
  String.get i s = list_ascii_of_string s !! i.
Proof.
  revert i. induction s as [|c s IH]; intros [|i]; simpl; auto.
Qed.

Lemma string_length_list (s : string) :
  String.length s = length (list_ascii_of_string s).
Proof. induction s; simpl; auto. Qed.

Lemma str_map_length (f : ascii → ascii) (s : string) :
  String.length (str_map f s) = String.length s.
Proof. induction s; simpl; auto. Qed.

(** ** The vowel test and the cost increment *)

Lemma vowel_test_truthy (i : ascii) : truthy (vowel_test i) = true.
Proof.
  unfold vowel_test.
  destruct (bool_decide (i = "a"%char)); reflexivity.
Qed.

Lemma zipped_loop_count (zipped : list (ascii * ascii)) (distance : nat) :
  zipped_loop zipped distance
  = distance + length (filter (λ p : ascii * ascii, p.1 ≠ p.2) zipped).
Proof.
  unfold zipped_loop. revert distance.
  induction zipped as [|[i j] z IH]; intros distance; simpl.
  - lia.
  - rewrite IH, vowel_test_truthy, filter_cons. simpl.
    destruct (decide (i ≠ j)); simpl; lia.
Qed.

Lemma cost_increment_differing (path : list string) (distance : nat)
    (a b : string) :
  py_index path (Z.of_nat (length path) - 1) = Ok a →
  py_index path (Z.of_nat (length path) - 2) = Ok b →
  cost_increment path distance = Ok (distance + differing a b).
Proof.
  intros Ha Hb. unfold cost_increment. rewrite Ha, Hb. simpl.
  by rewrite zipped_loop_count.
Qed.

Lemma py_index_nat {A} (l : list A) (n : nat) (x : A) :
  l !! n = Some x → py_index l (Z.of_nat n) = Ok x.
Proof.
  intros Hx. unfold py_index.
  destruct (Z.ltb_spec (Z.of_nat n) 0) as [?|_]; [lia|].
  destruct (Z.ltb_spec (Z.of_nat n) 0) as [?|_]; [lia|].
  by rewrite Nat2Z.id, Hx.
Qed.

(** The two shapes a popped path can have. *)
Lemma py_index_singleton (w : string) :
  py_index [w] (Z.of_nat (length [w]) - 1) = Ok w
  ∧ py_index [w] (Z.of_nat (length [w]) - 2) = Ok w.
Proof. split; reflexivity. Qed.

Lemma py_index_last_two (path : list string) (b a : string) :
  let path' := path ++ [b; a] in
  py_index path' (Z.of_nat (length path') - 1) = Ok a
  ∧ py_index path' (Z.of_nat (length path') - 2) = Ok b.
Proof.
  simpl. rewrite length_app. simpl. split.
  - replace (Z.of_nat (length path + 2) - 1)%Z
      with (Z.of_nat (length path + 1)) by lia.
    apply py_index_nat. rewrite lookup_app_r by lia.
    by replace (length path + 1 - length path) with 1 by lia.
  - replace (Z.of_nat (length path + 2) - 2)%Z
      with (Z.of_nat (length path)) by lia.
    apply py_index_nat. rewrite lookup_app_r by lia.
    by replace (length path - length path) with 0 by lia.
Qed.

(** ** [hamming] *)

Lemma hamming_loop_shift (range : list nat) (a b : ascii) (s t : string)
    (counter : nat) :
  hamming_loop (S <$> range) (String a s) (String b t) counter
  = hamming_loop range s t counter.
Proof.
  revert counter. induction range as [|i range IH]; intros counter; simpl.
  - reflexivity.
  - unfold str_index. simpl.
    destruct (String.get i s); simpl; [|reflexivity].
    destruct (String.get i t); simpl; [|reflexivity].
    apply IH.
Qed.

Lemma hamming_loop_spec (s t : string) (counter : nat) :
  hamming_loop (seq 0 (String.length s)) s t counter
  = if decide (String.length t < String.length s) then Raise IndexError
    else Ok (counter + differing s t).
Proof.
  revert t counter. induction s as [|a s IH]; intros t counter.
  - simpl. unfold differing. simpl. f_equal. lia.
  - destruct t as [|b t].
    + simpl. reflexivity.
    + cbn [String.length seq hamming_loop]. unfold str_index at 1 2.
      cbn [String.get rbind]. rewrite <- fmap_S_seq, hamming_loop_shift, IH.
      unfold differing. cbn [list_ascii_of_string zip zip_with].
      rewrite filter_cons. cbn [fst snd].
      repeat case_decide; try lia; try reflexivity; simpl; f_equal; lia.
Qed.

Lemma hamming_spec (a b : string) :
  hamming a b = if decide (String.length b < String.length a)
                then Raise IndexError else Ok (differing a b).
Proof. unfold hamming. by rewrite hamming_loop_spec. Qed.

(** ** [patterns] *)

Lemma patterns_fst (w : string) : (patterns w).*1 = seq 0 (String.length w).
Proof.
  unfold patterns. generalize (seq 0 (String.length w)) as l.
  induction l as [|i l IH]; [done|]. cbn [fmap list_fmap] in *. simpl. by f_equal.
Qed.

Lemma patterns_length (w : string) : length (patterns w) = String.length w.
Proof. unfold patterns. by rewrite length_fmap, length_seq. Qed.

Lemma patterns_NoDup (w : string) : NoDup (patterns w).
Proof.
  apply (NoDup_fmap_1 fst). rewrite patterns_fst. apply NoDup_seq.
Qed.

Lemma elem_of_patterns (w : string) (k : nat * string) :
  k ∈ patterns w ↔
  k.1 < String.length w
  ∧ k.2 = string_of_list_ascii (<[k.1:="?"%char]> (list_ascii_of_string w)).
Proof.
  unfold patterns. rewrite list_elem_of_fmap. split.
  - intros (i & -> & Hi). apply elem_of_seq in Hi. simpl. split; [lia|done].
  - intros [Hlt Heq]. exists k.1. split.
    + destruct k as [i p]; simpl in *. by rewrite Heq.
    + apply elem_of_seq. lia.
Qed.

Lemma patterns_key_length (w : string) (k : nat * string) :
  k ∈ patterns w → String.length k.2 = String.length w.
Proof.
  intros [_ ->]%elem_of_patterns.
  by rewrite string_length_list, list_ascii_of_string_of_list_ascii,
    length_insert, <- string_length_list.
Qed.

Lemma patterns_matches (w : string) (k : nat * string) :
  k ∈ patterns w → matches w k.
Proof.
  intros [Hlt Heq]%elem_of_patterns. unfold matches.
  split; [done|]. rewrite Heq.
  split.
  - rewrite string_get_lookup, list_ascii_of_string_of_list_ascii.
    apply list_lookup_insert_eq. by rewrite <- string_length_list.
  - intros j Hj.
    rewrite !string_get_lookup, list_ascii_of_string_of_list_ascii.
    by apply list_lookup_insert_ne.
Qed.

(** ** The index built by [__init__] *)

Lemma add_pattern_bucket word wp p k :
  bucket (add_pattern word wp p) k
  = bucket wp k ++ (if decide (k = p) then [word] else []).
Proof.
  unfold add_pattern, bucket. case_decide as Hk.
  - subst k. rewrite lookup_alter_eq.
    destruct (wp !! p) as [b|] eqn:Hp.
    + by rewrite Hp.
    + by rewrite lookup_insert_eq.
  - rewrite lookup_alter_ne by done. rewrite app_nil_r.
    destruct (wp !! p); [done|]. by rewrite lookup_insert_ne.
Qed.

Lemma add_pattern_no_empty word wp p :
  (∀ k, wp !! k ≠ Some []) → ∀ k, add_pattern word wp p !! k ≠ Some [].
Proof.
  intros Hwp k. unfold add_pattern.
  destruct (decide (k = p)) as [->|Hk].
  - rewrite lookup_alter_eq.
    destruct (wp !! p) as [b|] eqn:Hp.
    + rewrite Hp. simpl. intros [=Hb]. by destruct b.
    + rewrite lookup_insert_eq. simpl. discriminate.
  - rewrite lookup_alter_ne by done.
    destruct (wp !! p); [apply Hwp|].
    rewrite lookup_insert_ne by done. apply Hwp.
Qed.

Lemma foldl_add_pattern_bucket word ps wp k :
  NoDup ps →
  bucket (foldl (add_pattern word) wp ps) k
  = bucket wp k ++ (if decide (k ∈ ps) then [word] else []).
Proof.
  intros Hnd. revert wp.
  induction Hnd as [|p ps Hp Hnd IH]; intros wp; simpl.
  - by rewrite app_nil_r.
  - rewrite IH, add_pattern_bucket.
    destruct (decide (k = p)) as [->|Hk].
    + rewrite decide_False by done.
      rewrite decide_True by apply list_elem_of_here. by rewrite app_nil_r.
    + rewrite app_nil_r.
      destruct (decide (k ∈ ps)) as [Hin|Hin].
      * rewrite decide_True; [done|]. by apply list_elem_of_further.
      * rewrite decide_False; [done|].
        intros [?|?]%elem_of_cons; done.
Qed.

Lemma foldl_add_pattern_no_empty word ps wp :
  (∀ k, wp !! k ≠ Some []) →
  ∀ k, foldl (add_pattern word) wp ps !! k ≠ Some [].
Proof.
  revert wp. induction ps as [|p ps IH]; intros wp Hwp; simpl; [done|].
  apply IH. by apply add_pattern_no_empty.
Qed.

Lemma add_word_bucket size wp word k :
  bucket (add_word size wp word) k
  = bucket wp k
    ++ (if decide (String.length word = size ∧ k ∈ patterns word)
        then [word] else []).
Proof.
  unfold add_word.
  destruct (decide (String.length word = size)) as [Hlen|Hlen].
  - rewrite decide_False by (intros ?; done).
    rewrite foldl_add_pattern_bucket by apply patterns_NoDup.
    f_equal. destruct (decide (k ∈ patterns word)).
    + by rewrite decide_True.
    + rewrite decide_False; [done|]. by intros [_ ?].
  - rewrite decide_True by done.
    rewrite decide_False; [by rewrite app_nil_r|]. by intros [? _].
Qed.

Lemma add_word_no_empty size wp word :
  (∀ k, wp !! k ≠ Some []) → ∀ k, add_word size wp word !! k ≠ Some [].
Proof.
  intros Hwp. unfold add_word. case_decide; [done|].
  by apply foldl_add_pattern_no_empty.
Qed.

Lemma foldl_add_word_bucket size words wp k :
  bucket (foldl (add_word size) wp words) k
  = bucket wp k ++ bucket_of words size k.
Proof.
  revert wp. induction words as [|w words IH]; intros wp; simpl.
  - by rewrite app_nil_r.
  - rewrite IH, add_word_bucket, <- app_assoc. f_equal.
    unfold bucket_of. rewrite filter_cons. by case_decide.
Qed.

Lemma foldl_add_word_no_empty size words wp :
  (∀ k, wp !! k ≠ Some []) →
  ∀ k, foldl (add_word size) wp words !! k ≠ Some [].
Proof.
  revert wp. induction words as [|w words IH]; intros wp Hwp; simpl; [done|].
  apply IH. by apply add_word_no_empty.
Qed.

Lemma Graph_init_bucket words size k :
  bucket (word_patterns (Graph_init words size)) k = bucket_of words size k.
Proof.
  unfold Graph_init. simpl. rewrite foldl_add_word_bucket.
  unfold bucket at 1. by rewrite lookup_empty.
Qed.

Lemma Graph_init_lookup words size k b :
  word_patterns (Graph_init words size) !! k = Some b
  ↔ b = bucket_of words size k ∧ b ≠ [].
Proof.
  rewrite <- Graph_init_bucket. unfold bucket.
  pose proof (foldl_add_word_no_empty size words ∅) as Hne.
  specialize (Hne ltac:(intros k'; by rewrite lookup_empty) k).
  unfold Graph_init. simpl in *.
  destruct (foldl (add_word size) ∅ words !! k) as [b'|]; simpl.
  - split; [intros [= ->]; split; [done|congruence]|]. by intros [-> _].
  - split; [done|]. by intros [-> ?].
Qed.

Lemma elem_of_bucket_of words size k v :
  v ∈ bucket_of words size k
  ↔ v ∈ words ∧ String.length v = size ∧ k ∈ patterns v.
Proof. unfold bucket_of. rewrite list_elem_of_filter. tauto. Qed.

(** ** [unvisited] *)

Lemma unvisited_bucket g w (V : gmap string nat) :
  unvisited g w V
  = p ← patterns w; filter (λ c, V !! c = None) (bucket (word_patterns g) p).
Proof.
  unfold unvisited, bucket.
  induction (patterns w) as [|p ps IH]; [done|].
  cbn [mbind list_bind] in *. rewrite IH. f_equal.
  by destruct (word_patterns g !! p).
Qed.

Lemma unvisited_spec words size w (V : gmap string nat) :
  unvisited (Graph_init words size) w V
  = p ← patterns w; filter (λ c, V !! c = None) (bucket_of words size p).
Proof.
  rewrite unvisited_bucket.
  induction (patterns w) as [|p ps IH]; [done|].
  cbn [mbind list_bind] in *. by rewrite IH, Graph_init_bucket.
Qed.

Lemma elem_of_unvisited words size w (V : gmap string nat) c :
  c ∈ unvisited (Graph_init words size) w V
  ↔ V !! c = None ∧ c ∈ words ∧ String.length c = size
    ∧ ∃ p, p ∈ patterns w ∧ p ∈ patterns c.
Proof.
  rewrite unvisited_spec, list_elem_of_bind. split.
  - intros (p & Hc & Hp).
    apply list_elem_of_filter in Hc as [HV Hc].
    apply elem_of_bucket_of in Hc as (? & ? & ?). eauto 10.
  - intros (HV & Hc & Hlen & p & Hp & Hpc). exists p. split; [|done].
    apply list_elem_of_filter. split; [done|]. by apply elem_of_bucket_of.
Qed.

Lemma length_bind_le {A B} (f : A → list B) (l : list A) (m : nat) :
  (∀ x, x ∈ l → length (f x) ≤ m) → length (l ≫= f) ≤ length l * m.
Proof.
  induction l as [|x l IH]; intros Hf; [simpl; lia|].
  cbn [mbind list_bind length]. rewrite length_app.
  specialize (Hf x (list_elem_of_here _ _)) as Hx.
  specialize (IH (λ y Hy, Hf y (list_elem_of_further _ _ _ Hy))). lia.
Qed.

Lemma unvisited_length words size w (V : gmap string nat) :
  length (unvisited (Graph_init words size) w V) ≤ size * length words.
Proof.
  rewrite unvisited_spec.
  destruct (decide (String.length w = size)) as [Hlen|Hlen].
  - rewrite <- Hlen, <- patterns_length. apply length_bind_le.
    intros p _. etrans; [apply length_filter|]. apply length_filter.
  - etrans; [apply (length_bind_le _ _ 0)|lia].
    intros p Hp.
    destruct (filter _ (bucket_of words size p)) as [|c l] eqn:Hf; [done|].
    assert (c ∈ filter (λ c, V !! c = None) (bucket_of words size p)) as Hc
      by (rewrite Hf; apply list_elem_of_here).
    apply list_elem_of_filter in Hc as [_ Hc].
    apply elem_of_bucket_of in Hc as (_ & Hsz & Hpc).
    apply patterns_key_length in Hp, Hpc. congruence.
Qed.

(** ** Counting occurrences *)

Lemma occurrences_app w l1 l2 :
  occurrences w (l1 ++ l2) = occurrences w l1 + occurrences w l2.
Proof. unfold occurrences. by rewrite filter_app, length_app. Qed.

Lemma occurrences_filter w (P : string → Prop) `{!∀ x, Decision (P x)} l :
  P w → occurrences w (filter P l) = occurrences w l.
Proof.
  intros HP. unfold occurrences. induction l as [|v l IH]; [done|].
  rewrite !filter_cons. destruct (decide (P v)) as [Hv|Hv].
  - rewrite filter_cons. case_decide; simpl; by rewrite IH.
  - rewrite decide_False by congruence. done.
Qed.

Lemma occurrences_bind {A} w (f : A → list string) (l : list A) (m : nat) :
  (∀ x, x ∈ l → occurrences w (f x) = m) →
  occurrences w (l ≫= f) = length l * m.
Proof.
  induction l as [|x l IH]; intros Hf; [done|].
  cbn [mbind list_bind length]. rewrite occurrences_app.
  rewrite (Hf x (list_elem_of_here _ _)).
  rewrite (IH (λ y Hy, Hf y (list_elem_of_further _ _ _ Hy))). lia.
Qed.

Lemma occurrences_not_elem_of w l : w ∉ l → occurrences w l = 0.
Proof.
  unfold occurrences. induction l as [|v l IH]; intros Hw; [done|].
  apply not_elem_of_cons in Hw as [Hne Hw].
  rewrite filter_cons, decide_False by congruence. by apply IH.
Qed.

Lemma occurrences_NoDup w l : NoDup l → w ∈ l → occurrences w l = 1.
Proof.
  induction 1 as [|v l Hv Hnd IH]; intros Hw.
  - by apply not_elem_of_nil in Hw.
  - change (v :: l) with ([v] ++ l). rewrite occurrences_app.
    apply elem_of_cons in Hw as [->|Hw].
    + rewrite (occurrences_not_elem_of v l) by done.
      unfold occurrences. rewrite filter_cons, decide_True by done. done.
    + rewrite IH by done.
      unfold occurrences. rewrite filter_cons, decide_False; [done|].
      intros ->. done.
Qed.

Lemma occurrences_unvisited_self words size w (V : gmap string nat) :
  String.length w = size → V !! w = None →
  occurrences w (unvisited (Graph_init words size) w V)
  = String.length w * occurrences w words.
Proof.
  intros Hlen HV. rewrite unvisited_spec, <- patterns_length.
  apply occurrences_bind. intros p Hp.
  rewrite occurrences_filter by done.
  unfold bucket_of. by rewrite occurrences_filter.
Qed.

(** ** The heap *)

Lemma heap_min_elem (x : item) (h : list item) : heap_min x h ∈ x :: h.
Proof.
  revert x. induction h as [|y h IH]; intros x; simpl.
  - apply list_elem_of_here.
  - specialize (IH (if item_lt y x then y else x)).
    apply elem_of_cons in IH as [->|IH].
    + destruct (item_lt y x);
        [apply list_elem_of_further|]; apply list_elem_of_here.
    + by do 2 apply list_elem_of_further.
Qed.

Lemma heap_remove_length (m : item) (h : list item) :
  m ∈ h → length h = S (length (heap_remove m h)).
Proof.
  induction h as [|y h IH]; intros Hm; simpl.
  - by apply not_elem_of_nil in Hm.
  - case_decide as Hy; [done|]. simpl. f_equal. apply IH.
    apply elem_of_cons in Hm as [->|Hm]; done.
Qed.

Lemma heap_remove_subseteq (m : item) (h : list item) :
  heap_remove m h ⊆ h.
Proof.
  induction h as [|y h IH]; simpl; [done|].
  case_decide; set_solver.
Qed.

Lemma heappop_length (h h' : list item) (x : item) :
  heappop h = Some (x, h') → length h = S (length h').
Proof.
  destruct h as [|y h]; [done|]. unfold heappop. intros [= <- <-].
  exact (heap_remove_length (heap_min y h) (y :: h) (heap_min_elem y h)).
Qed.

Lemma heappop_None (h : list item) : heappop h = None ↔ h = [].
Proof. by destruct h. Qed.

(** ** The order of the heap

    Python's order on the queued tuples is total, and [heappop] hands out an
    item that none of the queued items precedes. *)

Lemma ascii_compare_trans (x y z : ascii) (c : comparison) :
  Ascii.compare x y = c → Ascii.compare y z = c → Ascii.compare x z = c.
Proof.
  unfold Ascii.compare. destruct c.
  - rewrite !N.compare_eq_iff. congruence.
  - rewrite !N.compare_lt_iff. lia.
  - rewrite !N.compare_gt_iff. lia.
Qed.

Lemma string_compare_refl (s : string) : String.compare s s = Eq.
Proof.
  pose proof (String.compare_antisym s s) as H.
  by destruct (String.compare s s).
Qed.

Lemma string_compare_eq (s t : string) : String.compare s t = Eq ↔ s = t.
Proof.
  split; [apply String.compare_eq_iff|]. intros ->. apply string_compare_refl.
Qed.

Lemma string_compare_trans (s t u : string) (c : comparison) :
  String.compare s t = c → String.compare t u = c → String.compare s u = c.
Proof.
  revert t u. induction s as [|a s IH]; intros [|b t] [|d u]; simpl;
    try congruence.
  destruct (Ascii.compare a b) eqn:Hab, (Ascii.compare b d) eqn:Hbd;
    try (intros <- ?; discriminate).
  - rewrite (ascii_compare_trans a b d Eq Hab Hbd). apply IH.
  - apply Ascii.compare_eq_iff in Hab as ->. by rewrite Hbd.
  - apply Ascii.compare_eq_iff in Hab as ->. by rewrite Hbd.
  - apply Ascii.compare_eq_iff in Hbd as <-. by rewrite Hab.
  - by rewrite (ascii_compare_trans a b d Lt Hab Hbd).
  - apply Ascii.compare_eq_iff in Hbd as <-. by rewrite Hab.
  - by rewrite (ascii_compare_trans a b d Gt Hab Hbd).
Qed.

Lemma path_compare_trans (p q r : list string) (c : comparison) :
  list_compare String.compare p q = c → list_compare String.compare q r = c →
  list_compare String.compare p r = c.
Proof.
  apply list_compare_trans.
  - apply string_compare_eq.
  - apply string_compare_trans.
  - intros x y. apply String.compare_antisym.
Qed.

Lemma item_compare_eq (x y : item) : item_compare x y = Eq ↔ x = y.
Proof.
  destruct x as [[c1 w1] p1], y as [[c2 w2] p2]. unfold item_compare.
  split.
  - destruct (Nat.compare_spec c1 c2); try done. subst.
    destruct (String.compare w1 w2) eqn:Hw; try done.
    apply string_compare_eq in Hw as ->.
    intros Hp. by apply (@list_compare_refl string String.compare string_compare_eq) in Hp as ->.
  - intros [= -> -> ->].
    rewrite Nat.compare_refl, string_compare_refl.
    by apply (@list_compare_refl string String.compare string_compare_eq).
Qed.

Lemma nat_compare_trans (x y z : nat) (c : comparison) :
  (x ?= y) = c → (y ?= z) = c → (x ?= z) = c.
Proof.
  destruct c.
  - rewrite !Nat.compare_eq_iff. congruence.
  - rewrite !Nat.compare_lt_iff. lia.
  - rewrite !Nat.compare_gt_iff. lia.
Qed.

Lemma word_path_compare_trans (w1 w2 w3 : string) (p1 p2 p3 : list string)
    (c : comparison) :
  match String.compare w1 w2 with
  | Eq => list_compare String.compare p1 p2 | o => o end = c →
  match String.compare w2 w3 with
  | Eq => list_compare String.compare p2 p3 | o => o end = c →
  match String.compare w1 w3 with
  | Eq => list_compare String.compare p1 p3 | o => o end = c.
Proof.
  destruct (String.compare w1 w2) eqn:H12, (String.compare w2 w3) eqn:H23;
    try (intros <- ?; discriminate).
  - rewrite (string_compare_trans _ _ _ _ H12 H23). apply path_compare_trans.
  - apply string_compare_eq in H12 as ->. by rewrite H23.
  - apply string_compare_eq in H12 as ->. by rewrite H23.
  - apply string_compare_eq in H23 as <-. by rewrite H12.
  - by rewrite (string_compare_trans _ _ _ _ H12 H23).
  - apply string_compare_eq in H23 as <-. by rewrite H12.
  - by rewrite (string_compare_trans _ _ _ _ H12 H23).
Qed.

Lemma item_compare_trans (x y z : item) (c : comparison) :
  item_compare x y = c → item_compare y z = c → item_compare x z = c.
Proof.
  destruct x as [[c1 w1] p1], y as [[c2 w2] p2], z as [[c3 w3] p3].
  unfold item_compare.
  destruct (c1 ?= c2) eqn:H12, (c2 ?= c3) eqn:H23;
    try (intros <- ?; discriminate).
  - rewrite (nat_compare_trans _ _ _ _ H12 H23).
    apply word_path_compare_trans.
  - apply Nat.compare_eq_iff in H12 as ->. by rewrite H23.
  - apply Nat.compare_eq_iff in H12 as ->. by rewrite H23.
  - apply Nat.compare_eq_iff in H23 as <-. by rewrite H12.
  - by rewrite (nat_compare_trans _ _ _ _ H12 H23).
  - apply Nat.compare_eq_iff in H23 as <-. by rewrite H12.
  - by rewrite (nat_compare_trans _ _ _ _ H12 H23).
Qed.

Lemma item_compare_antisym (x y : item) :
  item_compare y x = CompOpp (item_compare x y).
Proof.
  destruct x as [[c1 w1] p1], y as [[c2 w2] p2]. unfold item_compare.
  rewrite (Nat.compare_antisym c1 c2), (String.compare_antisym w1 w2).
  rewrite (@list_compare_antisym string String.compare string_compare_eq p1 p2)
    by (intros a b; apply String.compare_antisym).
  destruct (c1 ?= c2); simpl; try done.
  by destruct (String.compare w2 w1).
Qed.

Lemma heap_min_least (x : item) (h : list item) (y : item) :
  y ∈ x :: h → item_lt y (heap_min x h) = false.
Proof.
  unfold item_lt. revert x y. induction h as [|z h IH]; intros x y Hy; simpl.
  - apply list_elem_of_singleton in Hy as ->.
    by rewrite (proj2 (item_compare_eq x x) eq_refl).
  - set (m := if item_lt z x then z else x).
    assert (item_compare x m ≠ Lt ∧ item_compare z m ≠ Lt) as [Hx Hz].
    { subst m. unfold item_lt.
      destruct (item_compare z x) eqn:Hzx.
      - rewrite (proj2 (item_compare_eq x x) eq_refl). by rewrite Hzx.
      - rewrite (proj2 (item_compare_eq z z) eq_refl).
        rewrite (item_compare_antisym z x), Hzx. done.
      - rewrite (proj2 (item_compare_eq x x) eq_refl). by rewrite Hzx. }
    assert (y ∈ m :: h ∨ y = x ∨ y = z) as [Hin|Hxz].
    { apply elem_of_cons in Hy as [->|Hy]; [auto|].
      apply elem_of_cons in Hy as [->|Hy]; [auto|].
      left. by apply list_elem_of_further. }
    + by apply IH.
    + specialize (IH m m (list_elem_of_here _ _)).
      destruct (item_compare y (heap_min m h)) eqn:Hym; try done.
      destruct (item_compare m (heap_min m h)) eqn:Hmm; try done.
      * apply item_compare_eq in Hmm. rewrite <- Hmm in Hym.
        destruct Hxz as [->| ->]; congruence.
      * destruct (item_compare y m) eqn:Hyym.
        -- apply item_compare_eq in Hyym as ->. congruence.
        -- destruct Hxz as [->| ->]; congruence.
        -- pose proof (item_compare_trans (heap_min m h) m y Lt) as Ht.
           rewrite (item_compare_antisym m (heap_min m h)), Hmm in Ht.
           rewrite (item_compare_antisym y m), Hyym in Ht.
           specialize (Ht eq_refl eq_refl).
           rewrite (item_compare_antisym y (heap_min m h)), Hym in Ht.
           done.
Qed.

Lemma heappop_least (h h' : list item) (x y : item) :
  heappop h = Some (x, h') → y ∈ h → item_lt y x = false.
Proof.
  destruct h as [|z h]; [done|]. unfold heappop. intros [= <- _].
  apply heap_min_least.
Qed.

(** ** One round of the search *)

Lemma expand_app end_ path l1 l2 D st :
  expand end_ path (l1 ++ l2) D st
  = r ←! expand end_ path l1 D st; expand end_ path l2 r.1 r.2.
Proof.
  revert D st. induction l1 as [|c l1 IH]; intros D st; [done|].
  cbn [app expand].
  destruct (cost_increment path D) as [D1|]; [|done]. cbn [rbind].
  destruct (hamming c end_) as [h|]; [|done]. cbn [rbind].
  apply IH.
Qed.

Lemma expand_Ok_inv end_ path adjs D st D' st' :
  expand end_ path adjs D st = Ok (D', st') →
  dom (visited st') = dom (visited st) ∪ list_to_set adjs
  ∧ length (frontier st') = length (frontier st) + length adjs
  ∧ frontier st ⊆ frontier st'.
Proof.
  revert D st. induction adjs as [|c adjs IH]; intros D st.
  - intros [= <- <-]. split; [set_solver|]. split; [simpl; lia|done].
  - cbn [expand].
    destruct (cost_increment path D) as [D1|]; [|done]. cbn [rbind].
    destruct (hamming c end_) as [h|]; [|done]. cbn [rbind].
    intros (Hdom & Hlen & Hsub)%IH. cbn [visited frontier] in *.
    rewrite dom_insert_L in Hdom. unfold heappush in *.
    split; [set_solver|]. split; [simpl in *; lia|]. set_solver.
Qed.

Lemma expand_Ok end_ path a b adjs D st :
  py_index path (Z.of_nat (length path) - 1) = Ok a →
  py_index path (Z.of_nat (length path) - 2) = Ok b →
  Forall (λ c, String.length c ≤ String.length end_) adjs →
  ∃ st', expand end_ path adjs D st
         = Ok (D + length adjs * differing a b, st').
Proof.
  intros Ha Hb Hall. revert D st.
  induction Hall as [|c adjs Hc Hall IH]; intros D st.
  - exists st. simpl. f_equal. f_equal. lia.
  - cbn [expand]. rewrite (cost_increment_differing _ _ a b) by done.
    cbn [rbind]. rewrite hamming_spec, decide_False by lia. cbn [rbind].
    edestruct IH as [st' ->]. exists st'. f_equal. f_equal. simpl. lia.
Qed.

(** ** Termination of the search *)

Lemma size_list_to_set_le (l : list string) :
  base.size (list_to_set l : gset string) ≤ length l.
Proof.
  induction l as [|x l IH].
  - by rewrite list_to_set_nil, size_empty.
  - rewrite list_to_set_cons, size_union_alt, size_singleton. cbn [length].
    pose proof (subseteq_size (list_to_set l ∖ {[x]})
                  (list_to_set l : gset string)) as Hle.
    assert (list_to_set l ∖ {[x]} ⊆ (list_to_set l : gset string)) as Hsub
      by apply subseteq_difference_l, reflexivity.
    specialize (Hle Hsub). lia.
Qed.

Section termination.
Variables (words : list string) (sz : nat) (end_ : string).

Abbreviation g := (Graph_init words sz).
Abbreviation W := (list_to_set words : gset string).

Lemma unvisited_fresh w (V : gmap string nat) c :
  c ∈ unvisited g w V → V !! c = None ∧ c ∈ words.
Proof. intros Hc%elem_of_unvisited. tauto. Qed.

Lemma step_Continue st st' :
  step g end_ st = Continue st' →
  dom (visited st) ⊆ W →
  dom (visited st') ⊆ W
  ∧ dom (visited st) ⊆ dom (visited st')
  ∧ S (potential words sz st') ≤ potential words sz st.
Proof.
  unfold step. intros Hstep HW.
  destruct (heappop (frontier st)) as [[[[D word] path] fr]|] eqn:Hpop;
    [|done].
  case_decide; [done|].
  destruct (expand _ _ _ _ _) as [[D' st'']|] eqn:Hexp; [|done].
  injection Hstep as ->.
  apply expand_Ok_inv in Hexp as (Hdom & Hlen & _).
  cbn [visited frontier] in *.
  apply heappop_length in Hpop.
  pose proof (unvisited_length words sz word (visited st)) as Hbound.
  assert (list_to_set (unvisited g word (visited st)) ⊆ W) as Hsub.
  { intros c Hc%elem_of_list_to_set%unvisited_fresh.
    apply elem_of_list_to_set. tauto. }
  split; [set_solver|]. split; [set_solver|].
  unfold potential. rewrite Hlen, Hpop, Hdom.
  destruct (unvisited g word (visited st)) as [|c cs] eqn:Hcs.
  - simpl. rewrite union_empty_r_L. lia.
  - assert (c ∈ W ∧ c ∉ dom (visited st)) as [HcW Hcd].
    { pose proof (unvisited_fresh word (visited st) c) as Hf.
      rewrite Hcs in Hf. specialize (Hf (list_elem_of_here _ _)).
      split; [apply elem_of_list_to_set; tauto|].
      apply not_elem_of_dom. tauto. }
    assert (W ∖ (dom (visited st) ∪ list_to_set (c :: cs))
            ⊂ W ∖ dom (visited st)) as Hlt%subset_size.
    { split; [set_solver|]. intros Hback.
      specialize (Hback c). set_solver. }
    nia.
Qed.

Lemma run_potential n st st' :
  run g end_ n st = Some st' →
  dom (visited st) ⊆ W →
  dom (visited st') ⊆ W
  ∧ dom (visited st) ⊆ dom (visited st')
  ∧ n + potential words sz st' ≤ potential words sz st.
Proof.
  revert st. induction n as [|n IH]; intros st.
  - intros [= <-] HW. split; [done|]. split; [done|]. simpl. lia.
  - simpl. destruct (step g end_ st) as [st1|] eqn:Hstep; [|done].
    intros Hrun HW.
    apply step_Continue in Hstep as (HW1 & Hmono & Hpot); [|done].
    apply IH in Hrun as (HW' & Hmono' & Hpot'); [|done].
    split; [done|]. split; [set_solver|]. lia.
Qed.

Lemma potential_initial start :
  potential words sz (initial start) ≤ search_bound words sz.
Proof.
  unfold potential, initial, search_bound.
  cbn [visited frontier heappush length].
  rewrite dom_empty_L, difference_empty_L.
  apply Nat.add_le_mono_l, Nat.mul_le_mono_l, size_list_to_set_le.
Qed.

Lemma run_bound start n st :
  run g end_ n (initial start) = Some st →
  n + length (frontier st) ≤ search_bound words sz.
Proof.
  intros (_ & _ & Hpot)%run_potential; [|set_solver].
  pose proof (potential_initial start). unfold potential in Hpot at 1. lia.
Qed.

Lemma run_None_loop n st :
  run g end_ n st = None → ∃ r, min_path_loop n g end_ st = Some r.
Proof.
  revert st. induction n as [|n IH]; intros st; [done|]. simpl.
  destruct (step g end_ st) as [st1|r]; [apply IH|eauto].
Qed.

Lemma min_path_total start :
  ∃ r, min_path (S (search_bound words sz)) g start end_ = Some r.
Proof.
  apply run_None_loop.
  destruct (run g end_ _ (initial start)) as [st|] eqn:Hrun; [|done].
  apply run_bound in Hrun. lia.
Qed.

End termination.

(** ** Runs of the loop *)

Lemma step_Continue_pop g end_ st st' :
  step g end_ st = Continue st' →
  ∃ D w path fr,
    heappop (frontier st) = Some ((D, w, path), fr) ∧ w ≠ end_
    ∧ dom (visited st')
      = dom (visited st) ∪ list_to_set (unvisited g w (visited st)).
Proof.
  unfold step. intros Hstep.
  destruct (heappop (frontier st)) as [[[[D w] path] fr]|]; [|done].
  case_decide; [done|].
  destruct (expand _ _ _ _ _) as [[D' st'']|] eqn:Hexp; [|done].
  injection Hstep as ->.
  apply expand_Ok_inv in Hexp as (Hdom & _ & _). eauto 10.
Qed.

Lemma step_Done_None g end_ st :
  step g end_ st = Done (Ok None) ↔ frontier st = [].
Proof.
  unfold step. split.
  - destruct (heappop (frontier st)) as [[[[D w] path] fr]|] eqn:Hpop.
    + case_decide; [done|]. by destruct (expand _ _ _ _ _) as [[? ?]|].
    + intros _. by apply heappop_None.
  - by intros ->.
Qed.

Lemma step_Done_Some g end_ st path :
  step g end_ st = Done (Ok (Some path)) ↔
  ∃ D fr, heappop (frontier st) = Some ((D, end_, path), fr).
Proof.
  unfold step. split.
  - destruct (heappop (frontier st)) as [[[[D w] p] fr]|]; [|done].
    case_decide as Hw.
    + intros [= ->]. subst w. eauto.
    + by destruct (expand _ _ _ _ _) as [[? ?]|].
  - intros (D & fr & ->). by rewrite decide_True.
Qed.

Lemma step_Done_Raise g end_ st e :
  step g end_ st = Done (Raise e) → e = IndexError.
Proof.
  unfold step.
  destruct (heappop (frontier st)) as [[[[D w] p] fr]|]; [|done].
  case_decide; [done|].
  generalize (unvisited g w (visited st)) as adjs.
  generalize ({| visited := visited st; frontier := fr |}) as st0.
  intros st0 adjs. revert D st0.
  induction adjs as [|c adjs IH]; intros D st0; [done|].
  cbn [expand]. unfold cost_increment at 1.
  destruct (py_index p (Z.of_nat (length p) - 1)) as [a|e1] eqn:Ha.
  - destruct (py_index p (Z.of_nat (length p) - 2)) as [b|e2] eqn:Hb.
    + cbn [rbind]. rewrite hamming_spec. case_decide; cbn [rbind].
      * by intros [= <-].
      * apply IH.
    + cbn [rbind]. intros [= <-]. unfold py_index in Hb.
      repeat case_match; congruence.
  - cbn [rbind]. intros [= <-]. unfold py_index in Ha.
    repeat case_match; congruence.
Qed.

Lemma run_dom_mono g end_ n st st' :
  run g end_ n st = Some st' → dom (visited st) ⊆ dom (visited st').
Proof.
  revert st. induction n as [|n IH]; intros st; simpl.
  - by intros [= <-].
  - destruct (step g end_ st) as [st1|] eqn:Hstep; [|done].
    intros Hrun%IH.
    apply step_Continue_pop in Hstep as (D & w & p & fr & _ & _ & Hdom).
    set_solver.
Qed.

Lemma run_loop g end_ n st st' fuel :
  run g end_ n st = Some st' →
  min_path_loop (n + fuel) g end_ st = min_path_loop fuel g end_ st'.
Proof.
  revert st. induction n as [|n IH]; intros st; simpl.
  - by intros [= <-].
  - destruct (step g end_ st) as [st1|]; [apply IH|done].
Qed.

Lemma loop_run g end_ fuel st r :
  min_path_loop fuel g end_ st = Some r →
  ∃ n st', n < fuel ∧ run g end_ n st = Some st' ∧ step g end_ st' = Done r.
Proof.
  revert st. induction fuel as [|fuel IH]; intros st; [done|]. simpl.
  destruct (step g end_ st) as [st1|r'] eqn:Hstep.
  - intros (n & st' & Hn & Hrun & Hdone)%IH.
    exists (S n), st'. simpl. rewrite Hstep. split; [lia|done].
  - intros [= ->]. exists 0, st. split; [lia|done].
Qed.

Lemma loop_fuel_mono g end_ fuel fuel' st r :
  min_path_loop fuel g end_ st = Some r → fuel ≤ fuel' →
  min_path_loop fuel' g end_ st = Some r.
Proof.
  revert fuel' st. induction fuel as [|fuel IH]; intros fuel' st; [done|].
  intros Hloop Hle. destruct fuel' as [|fuel']; [lia|]. simpl in *.
  destruct (step g end_ st); [|done]. apply IH; [done|lia].
Qed.

Lemma run_exhausted g end_ n st st' fuel :
  run g end_ n st = Some st' → frontier st' = [] → n < fuel →
  min_path_loop fuel g end_ st = Some (Ok None).
Proof.
  intros Hrun Hnil Hlt.
  apply (loop_fuel_mono g end_ (n + 1)); [|lia].
  rewrite (run_loop _ _ _ _ _ _ Hrun). simpl.
  by rewrite (proj2 (step_Done_None g end_ st') Hnil).
Qed.

(** ** Paths in the frontier *)

Lemma path_last_two (path : list string) :
  path ≠ [] →
  ∃ a b, py_index path (Z.of_nat (length path) - 1) = Ok a
         ∧ py_index path (Z.of_nat (length path) - 2) = Ok b.
Proof.
  destruct path as [|x path _] using rev_ind; [done|]. intros _.
  destruct path as [|y path _] using rev_ind.
  - exists x, x. apply py_index_singleton.
  - exists x, y. rewrite <- app_assoc. apply (py_index_last_two path y x).
Qed.

Lemma heappop_elem (h h' : list item) (x : item) :
  heappop h = Some (x, h') → x ∈ h ∧ h' ⊆ h.
Proof.
  destruct h as [|y h]; [done|]. unfold heappop. intros [= <- <-].
  split; [apply heap_min_elem|].
  exact (heap_remove_subseteq (heap_min y h) (y :: h)).
Qed.

Lemma expand_frontier end_ path adjs D st D' st' (it : item) :
  expand end_ path adjs D st = Ok (D', st') →
  it ∈ frontier st' → it ∈ frontier st ∨ ∃ c, it.2 = path ++ [c].
Proof.
  revert D st. induction adjs as [|c adjs IH]; intros D st.
  - intros [= <- <-]. by left.
  - cbn [expand].
    destruct (cost_increment path D) as [D1|]; [|done]. cbn [rbind].
    destruct (hamming c end_) as [h|]; [|done]. cbn [rbind].
    intros Hexp Hit. destruct (IH _ _ Hexp Hit) as [Hin|?]; [|by right].
    cbn [frontier heappush] in Hin.
    apply elem_of_cons in Hin as [->|Hin]; [right; by exists c|by left].
Qed.

Lemma initial_nonempty_paths start : nonempty_paths (initial start).
Proof.
  intros it Hit. unfold initial, heappush in Hit. cbn [frontier] in Hit.
  by apply list_elem_of_singleton in Hit as ->.
Qed.

Lemma step_nonempty_paths g end_ st st' :
  nonempty_paths st → step g end_ st = Continue st' → nonempty_paths st'.
Proof.
  unfold step. intros Hne Hstep.
  destruct (heappop (frontier st)) as [[[[D w] path] fr]|] eqn:Hpop; [|done].
  case_decide; [done|].
  destruct (expand _ _ _ _ _) as [[D' st'']|] eqn:Hexp; [|done].
  injection Hstep as ->. apply heappop_elem in Hpop as [_ Hsub].
  intros it Hit.
  destruct (expand_frontier _ _ _ _ _ _ _ _ Hexp Hit) as [Hin|[c Hc]].
  - apply Hne, Hsub, Hin.
  - rewrite Hc. by destruct path.
Qed.

Lemma run_nonempty_paths g end_ n st st' :
  nonempty_paths st → run g end_ n st = Some st' → nonempty_paths st'.
Proof.
  revert st. induction n as [|n IH]; intros st Hne; simpl.
  - by intros [= <-].
  - destruct (step g end_ st) as [st1|] eqn:Hstep; [|done].
    apply IH. by eapply step_nonempty_paths.
Qed.

Lemma step_Raise_length words sz end_ st e :
  nonempty_paths st →
  step (Graph_init words sz) end_ st = Done (Raise e) →
  e = IndexError ∧ String.length end_ < sz.
Proof.
  intros Hne Hstep. split; [by eapply step_Done_Raise|].
  unfold step in Hstep.
  destruct (heappop (frontier st)) as [[[[D w] path] fr]|] eqn:Hpop; [|done].
  case_decide; [done|].
  apply heappop_elem in Hpop as [Hin _].
  destruct (path_last_two path (Hne _ Hin)) as (a & b & Ha & Hb).
  destruct (decide (Forall (λ c, String.length c ≤ String.length end_)
                      (unvisited (Graph_init words sz) w (visited st))))
    as [Hall|Hex].
  - destruct (expand_Ok end_ path a b _ D
                {| visited := visited st; frontier := fr |} Ha Hb Hall)
      as [st' Hexp].
    by rewrite Hexp in Hstep.
  - apply not_Forall_Exists in Hex; [|apply _].
    apply Exists_exists in Hex as (c & Hc & Hlen).
    apply elem_of_unvisited in Hc as (_ & _ & <- & _). simpl in Hlen. lia.
Qed.

(** * The statements of the specification *)

(** C1: the test [i == 'a' or 'e' or 'i' or 'o' or 'u' or 'y'] is truthy for
    every character [i], in particular for every pair of distinct characters
    met by the increment loop; so the increment added to [distance] for one
    candidate is the number of all positions at which the last two words of
    the popped path differ, vowel or not. *)
Theorem vowel_test_counts_all_differences
    (path : list string) (distance : nat) (a b : string) :
  py_index path (Z.of_nat (length path) - 1) = Ok a →
  py_index path (Z.of_nat (length path) - 2) = Ok b →
  (∀ i j : ascii, i ≠ j → truthy (vowel_test i) = true)
  ∧ cost_increment path distance = Ok (distance + differing a b).
Proof.
  intros Ha Hb. split.
  - intros i j _. apply vowel_test_truthy.
  - by apply cost_increment_differing.
Qed.

(** The path [cat; dig] ends in two words that differ in all three
    positions, only one of which holds a vowel: the increment is 3. *)
Lemma vowel_test_counts_all_differences_witness :
  (∀ i j : ascii, i ≠ j → truthy (vowel_test i) = true)
  ∧ cost_increment ["cat"; "dig"] 2 = Ok 5.
Proof.
  apply (vowel_test_counts_all_differences ["cat"; "dig"] 2 "dig" "cat");
    reflexivity.
Defined.

(** C2, as stated, fails: on a shorter first argument [hamming] returns the
    count over the common prefix instead of failing. *)
Lemma hamming_shorter_first_returns :
  String.length "cat" ≠ String.length "cots" ∧ hamming "cat" "cots" = Ok 1.
Proof. split; [by vm_compute|reflexivity]. Qed.

(** C2 (amended): [hamming a b] raises [IndexError] exactly when [a] is
    longer than [b]; otherwise, in particular for equal lengths, it returns
    the number of positions of [a] at which the two strings differ. *)
Theorem hamming_by_length (a b : string) :
  (String.length b < String.length a → hamming a b = Raise IndexError)
  ∧ (String.length a ≤ String.length b → hamming a b = Ok (differing a b))
  ∧ (String.length a = String.length b → hamming a b = Ok (differing a b)).
Proof.
  rewrite hamming_spec. repeat split; intros Hlen; case_decide; done || lia.
Qed.

Lemma hamming_by_length_witness :
  hamming "cats" "cot" = Raise IndexError
  ∧ hamming "cat" "cots" = Ok (differing "cat" "cots")
  ∧ hamming "cat" "cog" = Ok (differing "cat" "cog").
Proof.
  split; [|split].
  - apply (proj1 (hamming_by_length "cats" "cot")). simpl. lia.
  - apply (proj1 (proj2 (hamming_by_length "cat" "cots"))). simpl. lia.
  - apply (proj2 (proj2 (hamming_by_length "cat" "cog"))). reflexivity.
Defined.

(** C6: whatever the index, [min_path(w, w)] returns the path [[w]]: the
    first item popped is the start item and its word is the end word. *)
Theorem min_path_self (g : Graph) (w : string) (fuel : nat) :
  min_path (S fuel) g w w = Some (Ok (Some [w])).
Proof.
  unfold min_path, initial, heappush. simpl. unfold step. simpl.
  by rewrite decide_True.
Qed.

(** C8, as stated, fails: [main] compares the lengths of the lowercased
    words, and lowercasing may lengthen a word.  The one-character word made
    of the capital I with dot above and the word [ab] differ in length, yet
    their lowercase forms have two characters each: [main] raises nothing,
    builds the index and runs the search. *)
Lemma main_raw_lengths_differ_no_raise :
  String.length (String capital_I_dot "") ≠ String.length "ab"
  ∧ main lower_dotted upper_ascii 2 ∅ (String capital_I_dot "") "ab" (Some ∅)
    = Some ([EvGraphInit ["ab"] 2;
             EvMinPath (String "i" (String combining_dot "")) "ab"],
            Ok ("No word ladder exists from "
                +:+ String "I" (String combining_dot "") +:+ " to AB")).
Proof. split; [by vm_compute|]. vm_compute. reflexivity. Qed.

(** C8 (amended): when the lowercased start and end words differ in length,
    [main] raises its explicit exception, whatever the case mappings, the
    fuel and the dictionary; the events logged before it hold no index
    construction and no search, at most the reading of the dictionary
    file. *)
Theorem main_length_mismatch
    (lower upper : string → string)
    (fuel : nat) (dictionary : gset string) (start end_ : string)
    (words : option (gset string)) :
  String.length (lower start) ≠ String.length (lower end_) →
  ∃ log,
    main lower upper fuel dictionary start end_ words
    = Some (log, Raise (Exception "Words must be the same length."))
    ∧ ∀ e, e ∈ log → e = EvOpenDictionary.
Proof.
  intros Hlen. unfold main.
  destruct words as [ws|].
  - exists []. rewrite decide_True by done.
    split; [done|]. by intros e ?%not_elem_of_nil.
  - exists [EvOpenDictionary]. rewrite decide_True by done.
    split; [done|]. by intros e ->%list_elem_of_singleton.
Qed.

Lemma main_length_mismatch_witness :
  ∃ log,
    main lower_ascii upper_ascii 0 ∅ "Cat" "Goat" (Some {["cat"; "goat"]})
    = Some (log, Raise (Exception "Words must be the same length."))
    ∧ ∀ e, e ∈ log → e = EvOpenDictionary.
Proof.
  apply (main_length_mismatch lower_ascii upper_ascii 0 ∅ "Cat" "Goat").
  simpl. lia.
Defined.

(** C5: the index built by [__init__] holds only words of the input that
    have the requested length, each under keys it matches; and a retained
    word lies in exactly the buckets of its own patterns, which are as many
    as its letters, one per position. *)
Theorem index_buckets (words : list string) (sz : nat) :
  let g := Graph_init words sz in
  (∀ k b v, word_patterns g !! k = Some b → v ∈ b →
            v ∈ words ∧ String.length v = sz ∧ matches v k)
  ∧ (∀ w, w ∈ words → String.length w = sz →
          (∀ k, (∃ b, word_patterns g !! k = Some b ∧ w ∈ b)
                ↔ k ∈ patterns w)
          ∧ (patterns w).*1 = seq 0 sz
          ∧ NoDup (patterns w)
          ∧ length (patterns w) = sz).
Proof.
  intros g. split.
  - intros k b v [-> _]%Graph_init_lookup (Hv & Hlen & Hk)%elem_of_bucket_of.
    auto using patterns_matches.
  - intros w Hw Hlen. split; [|split; [|split]].
    + intros k. split.
      * intros (b & [-> _]%Graph_init_lookup & Hb).
        apply elem_of_bucket_of in Hb. tauto.
      * intros Hk. exists (bucket_of words sz k).
        assert (w ∈ bucket_of words sz k) as Hin
          by by apply elem_of_bucket_of.
        split; [|done]. apply Graph_init_lookup. split; [done|].
        intros Hnil. rewrite Hnil in Hin. by apply not_elem_of_nil in Hin.
    + by rewrite patterns_fst, Hlen.
    + apply patterns_NoDup.
    + by rewrite patterns_length.
Qed.

(** The dictionary of the specification's example: [cats] is left out, and
    [cat] sits under its three patterns. *)
Lemma index_buckets_witness :
  (∀ k b, word_patterns (Graph_init ["cat"; "cats"; "dog"] 3) !! k = Some b →
          "cats" ∉ b)
  ∧ ∀ k, (∃ b, word_patterns (Graph_init ["cat"; "cats"; "dog"] 3) !! k
               = Some b ∧ "cat" ∈ b)
         ↔ k ∈ [(0, "?at"); (1, "c?t"); (2, "ca?")].
Proof.
  pose proof (index_buckets ["cat"; "cats"; "dog"] 3) as [Honly Hall].
  split.
  - intros k b Hk Hin. by destruct (Honly k b "cats" Hk Hin) as (_ & ? & _).
  - apply (Hall "cat"); [|reflexivity]. apply list_elem_of_here.
Defined.

(** C10: a word of the index's length that went into the index and is not a
    key of [visited] is returned by [unvisited] on itself, once for each of
    its pattern buckets and each time it occurs in the input: as many times
    as it has letters when the input is a set. *)
Theorem unvisited_returns_word_itself
    (words : list string) (sz : nat) (w : string) (V : gmap string nat) :
  w ∈ words → String.length w = sz → V !! w = None →
  let out := unvisited (Graph_init words sz) w V in
  occurrences w out = sz * occurrences w words
  ∧ (NoDup words → occurrences w out = sz)
  ∧ (0 < sz → w ∈ out).
Proof.
  intros Hw Hlen HV out. subst out.
  rewrite occurrences_unvisited_self, Hlen by done.
  split; [done|]. split.
  - intros Hnd. rewrite occurrences_NoDup by done. lia.
  - intros Hpos. apply elem_of_unvisited.
    repeat (split; [done|]).
    exists (0, string_of_list_ascii (<[0:="?"%char]> (list_ascii_of_string w))).
    split; apply elem_of_patterns; simpl; split; (lia || done).
Qed.

Lemma unvisited_returns_word_itself_witness :
  occurrences "cat"
    (unvisited (Graph_init ["cat"; "cot"; "cog"; "dog"] 3) "cat" ∅) = 3
  ∧ "cat" ∈ unvisited (Graph_init ["cat"; "cot"; "cog"; "dog"] 3) "cat" ∅.
Proof.
  pose proof (unvisited_returns_word_itself
                ["cat"; "cot"; "cog"; "dog"] 3 "cat" ∅
                (list_elem_of_here _ _) eq_refl eq_refl) as (_ & Hocc & Hin).
  split; [apply Hocc|apply Hin; lia].
  apply (bool_decide_unpack _). by vm_compute.
Defined.

(** C3: in the round that pops [(D, word, P)], the increment [d] (the
    differing positions of the last two words of [P]) is added to the one
    [distance] variable for every candidate and never reset: after the
    candidate at index [k] (the [k+1]-th of the round) the variable holds
    [D + (k+1) * d], and that candidate is recorded in [visited] and pushed
    with cost [D + (k+1) * d + hamming(candidate, end)]; the pushed item is
    still in the frontier when the round ends. *)
Theorem round_costs_accumulate
    (g : Graph) (end_ : string) (st : state)
    (D : nat) (word : string) (P : list string) (fr : list item)
    (a b : string) :
  heappop (frontier st) = Some ((D, word, P), fr) →
  word ≠ end_ →
  py_index P (Z.of_nat (length P) - 1) = Ok a →
  py_index P (Z.of_nat (length P) - 2) = Ok b →
  Forall (λ c, String.length c ≤ String.length end_)
         (unvisited g word (visited st)) →
  let cands := unvisited g word (visited st) in
  let d := differing a b in
  ∃ st',
    step g end_ st = Continue st'
    ∧ ∀ k c, cands !! k = Some c →
        ∃ h stk,
          hamming c end_ = Ok h
          ∧ expand end_ P (take (S k) cands) D
              {| visited := visited st; frontier := fr |}
            = Ok (D + S k * d, stk)
          ∧ visited stk !! c = Some (D + S k * d + h)
          ∧ head (frontier stk) = Some (D + S k * d + h, c, P ++ [c])
          ∧ (D + S k * d + h, c, P ++ [c]) ∈ frontier st'.
Proof.
  intros Hpop Hne Ha Hb Hall cands d.
  set (st0 := {| visited := visited st; frontier := fr |}).
  destruct (expand_Ok end_ P a b cands D st0 Ha Hb Hall) as [st' Hexp].
  exists st'. split.
  { unfold step. rewrite Hpop, decide_False by done.
    fold cands st0. by rewrite Hexp. }
  intros k c Hk.
  assert (String.length c ≤ String.length end_) as Hc
    by exact (proj1 (Forall_lookup _ _) Hall k c Hk).
  assert (k < length cands) as Hlt by by eapply lookup_lt_Some.
  assert (Forall (λ c, String.length c ≤ String.length end_) (take k cands))
    as Hallk by by apply Forall_take.
  destruct (expand_Ok end_ P a b (take k cands) D st0 Ha Hb Hallk)
    as [stk0 Hk0].
  rewrite length_take_le in Hk0 by lia.
  exists (differing c end_).
  exists {| visited := <[c:=D + S k * d + differing c end_]> (visited stk0);
            frontier := heappush (frontier stk0)
                          (D + S k * d + differing c end_, c, P ++ [c]) |}.
  assert (hamming c end_ = Ok (differing c end_)) as Hham
    by (rewrite hamming_spec, decide_False; [done|lia]).
  assert (expand end_ P (take (S k) cands) D st0
          = Ok (D + S k * d,
                {| visited := <[c:=D + S k * d + differing c end_]>
                                (visited stk0);
                   frontier := heappush (frontier stk0)
                     (D + S k * d + differing c end_, c, P ++ [c]) |}))
    as Hstep.
  { rewrite (take_S_r _ _ _ Hk), expand_app, Hk0. cbn [rbind fst snd expand].
    rewrite (cost_increment_differing _ _ a b), Hham by done.
    cbn [rbind]. fold d.
    by replace (D + k * d + d) with (D + S k * d) by lia. }
  split; [done|]. split; [done|].
  split; [apply lookup_insert_eq|]. split; [done|].
  rewrite <- (take_drop (S k) cands), expand_app, Hstep in Hexp.
  cbn [rbind fst snd] in Hexp.
  apply expand_Ok_inv in Hexp as (_ & _ & Hsub).
  apply Hsub. cbn [frontier heappush]. apply list_elem_of_here.
Qed.

(** The round that pops [(2, cot, [cat; cot])] with [cog] and [cob] both
    adjacent and new: [d = 1], and the second candidate pays for both. *)
Lemma round_costs_accumulate_witness :
  let g := Graph_init ["cat"; "cot"; "cog"; "cob"; "dog"] 3 in
  let st := {| visited := {[ "cat" := 3; "cot" := 2 ]};
               frontier := [(3, "cat", ["cat"; "cat"]);
                            (2, "cot", ["cat"; "cot"])] |} in
  unvisited g "cot" (visited st) = ["cog"; "cob"]
  ∧ ∃ st',
    step g "dog" st = Continue st'
    ∧ ∀ k c, ["cog"; "cob"] !! k = Some c →
        ∃ h stk,
          hamming c "dog" = Ok h
          ∧ expand "dog" ["cat"; "cot"] (take (S k) ["cog"; "cob"]) 2
              {| visited := visited st;
                 frontier := [(3, "cat", ["cat"; "cat"])] |}
            = Ok (2 + S k * 1, stk)
          ∧ visited stk !! c = Some (2 + S k * 1 + h)
          ∧ head (frontier stk)
            = Some (2 + S k * 1 + h, c, ["cat"; "cot"] ++ [c])
          ∧ (2 + S k * 1 + h, c, ["cat"; "cot"] ++ [c]) ∈ frontier st'.
Proof.
  intros g st. split; [by vm_compute|].
  apply (round_costs_accumulate g "dog" st 2 "cot" ["cat"; "cot"]
           [(3, "cat", ["cat"; "cat"])] "cot" "cat").
  - by vm_compute.
  - done.
  - reflexivity.
  - reflexivity.
  - change (unvisited g "cot" (visited st)) with ["cog"; "cob"].
    repeat constructor.
Defined.

(** C4: when the loop of [min_path] empties the frontier without popping the
    end word, the call returns [None] (no exception, no path), for any fuel
    that covers the rounds run; so it does for the dictionary
    [{aaa, bbb}] of length 3 from [aaa] to [bbb], in either iteration order
    of the set. *)
Theorem min_path_absent :
  (∀ g start end_ n st fuel,
     run g end_ n (initial start) = Some st → frontier st = [] → n < fuel →
     min_path fuel g start end_ = Some (Ok None))
  ∧ (∀ ws fuel, ws ≡ₚ ["aaa"; "bbb"] → 5 ≤ fuel →
       min_path fuel (Graph_init ws 3) "aaa" "bbb" = Some (Ok None)).
Proof.
  split.
  - intros g start end_ n st fuel Hrun Hnil Hlt.
    by apply (run_exhausted g end_ n (initial start) st).
  - intros ws fuel Hperm%Permutation_sym%permutations_Permutation Hfuel.
    apply (loop_fuel_mono _ _ 5); [|done].
    vm_compute in Hperm.
    repeat (apply elem_of_cons in Hperm as [->|Hperm]); [by vm_compute..|].
    by apply not_elem_of_nil in Hperm.
Qed.

(** Four rounds empty the frontier of [{aaa, bbb}]: the start item, then the
    three copies of [aaa] that [unvisited] hands back for [aaa] itself. *)
Lemma min_path_absent_witness :
  (∃ V, run (Graph_init ["aaa"; "bbb"] 3) "bbb" 4 (initial "aaa")
        = Some {| visited := V; frontier := [] |})
  ∧ min_path 5 (Graph_init ["aaa"; "bbb"] 3) "aaa" "bbb" = Some (Ok None)
  ∧ min_path 5 (Graph_init ["bbb"; "aaa"] 3) "aaa" "bbb" = Some (Ok None).
Proof.
  split; [|split].
  - eexists. vm_compute. reflexivity.
  - apply (proj1 min_path_absent (Graph_init ["aaa"; "bbb"] 3) "aaa" "bbb" 4
             {| visited := {[ "aaa" := 3 ]}; frontier := [] |} 5).
    + by vm_compute.
    + reflexivity.
    + lia.
  - apply (proj2 min_path_absent ["bbb"; "aaa"] 5); [|lia].
    apply perm_swap.
Defined.

(** C9: for the dictionary [{cat, cot, cog, dog}] of length 3, in any
    iteration order, [min_path] from [cat] to [dog] returns a path; it starts
    with [cat], ends with [dog] and holds dictionary words only. *)
Theorem min_path_cat_to_dog (ws : list string) (fuel : nat) :
  ws ≡ₚ ["cat"; "cot"; "cog"; "dog"] → 7 ≤ fuel →
  ∃ path,
    min_path fuel (Graph_init ws 3) "cat" "dog" = Some (Ok (Some path))
    ∧ head path = Some "cat"
    ∧ last path = Some "dog"
    ∧ Forall (λ w, w ∈ ws) path.
Proof.
  intros Hperm Hfuel. exists ["cat"; "cot"; "cog"; "dog"].
  split; [|split; [done|split; [done|]]].
  - apply (loop_fuel_mono _ _ 7); [|done].
    apply Permutation_sym, permutations_Permutation in Hperm.
    vm_compute in Hperm.
    repeat (apply elem_of_cons in Hperm as [->|Hperm]); [by vm_compute..|].
    by apply not_elem_of_nil in Hperm.
  - apply Forall_forall. intros w Hw. by rewrite Hperm.
Qed.

Lemma min_path_cat_to_dog_witness :
  ∃ path,
    min_path 7 (Graph_init ["dog"; "cog"; "cat"; "cot"] 3) "cat" "dog"
    = Some (Ok (Some path))
    ∧ head path = Some "cat"
    ∧ last path = Some "dog"
    ∧ Forall (λ w, w ∈ ["dog"; "cog"; "cat"; "cot"]) path.
Proof.
  apply (min_path_cat_to_dog ["dog"; "cog"; "cat"; "cot"] 7); [|lia].
  apply (Permutation_trans (l' := ["cat"; "cot"; "dog"; "cog"])).
  - apply (Permutation_app_comm ["dog"; "cog"] ["cat"; "cot"]).
  - do 2 apply perm_skip. apply perm_swap.
Defined.

(** C7, as stated, fails: from [cat] to the short word [do] the loop ends
    neither by emptying the frontier nor by popping the end word.  The
    first candidate makes [hamming] raise [IndexError], so the call returns
    neither [None] nor a path, and the neighbour [cot] is never queued. *)
Lemma min_path_short_end_raises :
  min_path 1 (Graph_init ["cat"; "cot"; "cog"; "dog"] 3) "cat" "do"
  = Some (Raise IndexError)
  ∧ min_path 50 (Graph_init ["cat"; "cot"; "cog"; "dog"] 3) "cat" "do"
    = Some (Raise IndexError)
  ∧ unvisited (Graph_init ["cat"; "cot"; "cog"; "dog"] 3) "cat" ∅
    = ["cat"; "cat"; "cot"; "cat"].
Proof. repeat split; vm_compute; reflexivity. Qed.

(** C7 (amended): [min_path] terminates on every index built from a finite
    word list, by one of three exits.
    - A candidate handed out by [unvisited] is an indexed word that is not
      yet a key of [visited]; the round records it, it stays a key, and no
      later call of [unvisited] returns it again.
    - After [n] rounds [n] items have been popped and [len(frontier)] are
      queued, so [n + len(frontier)] counts the pushes made so far; it never
      exceeds [search_bound].
    - With more fuel than [search_bound] the loop ends: by emptying the
      frontier (result [None]), by popping the end word (result its path),
      or, only when the end word is shorter than the indexed words, by the
      [IndexError] of [hamming]. *)
Theorem min_path_terminates (words : list string) (sz : nat)
    (start end_ : string) :
  let g := Graph_init words sz in
  (∀ st st' st'' m D w path fr w' c,
     heappop (frontier st) = Some ((D, w, path), fr) →
     c ∈ unvisited g w (visited st) →
     step g end_ st = Continue st' →
     run g end_ m st' = Some st'' →
     visited st !! c = None ∧ c ∈ words
     ∧ c ∈ dom (visited st'') ∧ c ∉ unvisited g w' (visited st''))
  ∧ (∀ n st, run g end_ n (initial start) = Some st →
             n + length (frontier st) ≤ search_bound words sz)
  ∧ ∃ r,
      (∀ fuel, search_bound words sz < fuel →
               min_path fuel g start end_ = Some r)
      ∧ ((r = Ok None
          ∧ ∃ n st, run g end_ n (initial start) = Some st
                    ∧ frontier st = [])
         ∨ (∃ path n st D fr,
              r = Ok (Some path)
              ∧ run g end_ n (initial start) = Some st
              ∧ heappop (frontier st) = Some ((D, end_, path), fr))
         ∨ (r = Raise IndexError ∧ String.length end_ < sz)).
Proof.
  intros g. split; [|split].
  - intros st st' st'' m D w path fr w' c Hpop Hc Hstep Hrun.
    destruct (unvisited_fresh words sz w (visited st) c Hc) as [Hnew Hin].
    split; [done|]. split; [done|].
    apply step_Continue_pop in Hstep as (D0 & w0 & p0 & fr0 & Hpop0 & _ & Hdom).
    rewrite Hpop in Hpop0. injection Hpop0 as <- <- <- <-.
    apply run_dom_mono in Hrun.
    assert (c ∈ dom (visited st'')) as Hkey.
    { apply Hrun. rewrite Hdom. apply elem_of_union_r.
      by apply elem_of_list_to_set. }
    split; [done|].
    intros [Hnone _]%unvisited_fresh.
    by apply not_elem_of_dom in Hnone.
  - intros n st. apply run_bound.
  - destruct (min_path_total words sz end_ start) as [r Hr].
    exists r. split.
    { intros fuel Hfuel. apply (loop_fuel_mono _ _ _ _ _ _ Hr). lia. }
    apply loop_run in Hr as (n & st & _ & Hrun & Hdone).
    destruct r as [[path|]|e].
    + right; left. apply step_Done_Some in Hdone as (D & fr & Hpop).
      exists path, n, st, D, fr. done.
    + left. split; [done|]. apply step_Done_None in Hdone. eauto.
    + right; right.
      apply step_Raise_length in Hdone as [-> Hlen]; [done|].
      eapply run_nonempty_paths; [|done]. apply initial_nonempty_paths.
Qed.

(** On [{cat, cot, cog, dog}] the bound is 49; the search from [cat] to
    [dog] ends within it, and so does the one to the short word [do], with
    the [IndexError] of [hamming]. *)
Lemma min_path_terminates_witness :
  (∃ r, min_path 50 (Graph_init ["cat"; "cot"; "cog"; "dog"] 3) "cat" "dog"
        = Some r)
  ∧ ∃ r, min_path 50 (Graph_init ["cat"; "cot"; "cog"; "dog"] 3) "cat" "do"
         = Some r.
Proof.
  split.
  - destruct (proj2 (proj2 (min_path_terminates
                ["cat"; "cot"; "cog"; "dog"] 3 "cat" "dog"))) as (r & Hr & _).
    exists r. apply Hr. vm_compute. lia.
  - destruct (proj2 (proj2 (min_path_terminates
                ["cat"; "cot"; "cog"; "dog"] 3 "cat" "do"))) as (r & Hr & _).
    exists r. apply Hr. vm_compute. lia.
Defined.

Example min_path_short_end :
  min_path 50 (Graph_init ["cat"; "cot"; "cog"; "dog"] 3) "cat" "do"
  = Some (Raise IndexError).
Proof. vm_compute. reflexivity. Qed.

(** * Further properties of the code *)

(** ** Differing positions *)

Lemma differing_cons (a b : ascii) (s t : string) :
  differing (String a s) (String b t)
  = (if decide (a = b) then 0 else 1) + differing s t.
Proof.
  unfold differing. cbn [list_ascii_of_string zip zip_with].
  rewrite filter_cons. cbn [fst snd].
  destruct (decide (a = b)) as [->|Hab].
  - by rewrite decide_False by (intros ?; done).
  - by rewrite decide_True.
Qed.

Lemma differing_nil_l (t : string) : differing "" t = 0.
Proof. done. Qed.

Lemma differing_nil_r (s : string) : differing s "" = 0.
Proof. by destruct s. Qed.

Lemma differing_refl (s : string) : differing s s = 0.
Proof.
  induction s as [|a s IH]; [done|].
  by rewrite differing_cons, decide_True.
Qed.

Lemma differing_sym (s t : string) : differing s t = differing t s.
Proof.
  revert t. induction s as [|a s IH]; intros [|b t];
    rewrite ?differing_nil_l, ?differing_nil_r; try done.
  rewrite !differing_cons, IH.
  destruct (decide (a = b)) as [->|Hab].
  - by rewrite decide_True.
  - by rewrite decide_False by congruence.
Qed.

Lemma differing_le (s t : string) : differing s t ≤ String.length s.
Proof.
  revert t. induction s as [|a s IH]; intros [|b t];
    rewrite ?differing_nil_l, ?differing_nil_r; try (simpl; lia).
  rewrite differing_cons. specialize (IH t). simpl. case_decide; lia.
Qed.

Lemma differing_zero (s t : string) :
  String.length s = String.length t → differing s t = 0 → s = t.
Proof.
  revert t. induction s as [|a s IH]; intros [|b t]; simpl; try done.
  rewrite differing_cons. intros [= Hlen].
  destruct (decide (a = b)) as [->|Hab]; [|lia].
  intros Hd. f_equal. by apply IH.
Qed.

(** ** Masked words *)

Lemma masked_0 (a : ascii) (s : string) :
  masked 0 (String a s) = String "?" s.
Proof.
  unfold masked. cbn [list_ascii_of_string]. simpl.
  by rewrite string_of_list_ascii_of_string.
Qed.

Lemma masked_S (i : nat) (a : ascii) (s : string) :
  masked (S i) (String a s) = String a (masked i s).
Proof. done. Qed.

Lemma elem_of_patterns_masked (w : string) (k : nat * string) :
  k ∈ patterns w ↔ k.1 < String.length w ∧ k.2 = masked k.1 w.
Proof. apply elem_of_patterns. Qed.

Lemma masked_length (i : nat) (w : string) :
  String.length (masked i w) = String.length w.
Proof.
  unfold masked.
  by rewrite string_length_list, list_ascii_of_string_of_list_ascii,
    length_insert, <- string_length_list.
Qed.

Lemma masked_eq_differing (i : nat) (v w : string) :
  i < String.length v → masked i v = masked i w → differing v w ≤ 1.
Proof.
  revert i w. induction v as [|a v IH]; intros i [|b w]; simpl; try lia.
  - intros _ Heq. apply (f_equal String.length) in Heq.
    rewrite !masked_length in Heq. done.
  - intros Hi. rewrite differing_cons. destruct i as [|i].
    + rewrite !masked_0. intros [= ->]. rewrite differing_refl.
      case_decide; lia.
    + rewrite !masked_S. intros [= -> Heq].
      rewrite decide_True by done. apply (IH i); [lia|done].
Qed.

Lemma differing_masked (v w : string) :
  String.length v = String.length w → 0 < String.length v →
  differing v w ≤ 1 →
  ∃ i, i < String.length v ∧ masked i v = masked i w.
Proof.
  revert w. induction v as [|a v IH]; intros [|b w]; simpl; try lia.
  intros [= Hlen] _. rewrite differing_cons.
  destruct (decide (a = b)) as [->|Hab].
  - intros Hd. destruct v as [|a' v].
    + destruct w; [|done]. exists 0. split; [lia|done].
    + destruct (IH w Hlen ltac:(simpl; lia) Hd) as (i & Hi & Heq).
      exists (S i). split; [lia|]. by rewrite !masked_S, Heq.
  - intros Hd. exists 0. split; [lia|]. rewrite !masked_0.
    f_equal. apply differing_zero; [done|lia].
Qed.

Lemma masked_twice (i j : nat) (v w : string) :
  i ≠ j → i < String.length v → j < String.length v →
  masked i v = masked i w → masked j v = masked j w → v = w.
Proof.
  revert i j w. induction v as [|a v IH]; intros i j [|b w]; simpl; try lia.
  - intros _ _ _ Heq. apply (f_equal String.length) in Heq.
    rewrite !masked_length in Heq. done.
  - intros Hij Hi Hj. destruct i as [|i], j as [|j]; try done.
    + rewrite !masked_0, !masked_S. by intros [= ->] [= ->].
    + rewrite !masked_0, !masked_S. by intros [= -> _] [= ->].
    + rewrite !masked_S. intros [= -> Hi'] [= Hj']. f_equal.
      apply (IH i j); (lia || done).
Qed.

Lemma share_pattern (v w : string) :
  (∃ p, p ∈ patterns v ∧ p ∈ patterns w)
  ↔ String.length v = String.length w ∧ 0 < String.length v
    ∧ differing v w ≤ 1.
Proof.
  split.
  - intros ([i p] & [Hi Hv]%elem_of_patterns_masked
                  & [_ Hw]%elem_of_patterns_masked).
    simpl in *. subst p.
    split; [|split; [lia|by apply (masked_eq_differing i)]].
    apply (f_equal String.length) in Hw. by rewrite !masked_length in Hw.
  - intros (Hlen & Hpos & Hd).
    destruct (differing_masked v w Hlen Hpos Hd) as (i & Hi & Heq).
    exists (i, masked i v).
    split; apply elem_of_patterns_masked; simpl; split; (lia || done).
Qed.

(** ** [hamming] on words of one length *)

(** X1: on two words of one length [hamming] returns 0 exactly when the
    words are equal; in particular [hamming(w, w)] is 0. *)
Theorem hamming_zero_iff_equal (a b : string) :
  String.length a = String.length b →
  hamming a a = Ok 0 ∧ (hamming a b = Ok 0 ↔ a = b).
Proof.
  intros Hlen. rewrite !hamming_spec, !decide_False by lia.
  rewrite differing_refl. split; [done|]. split.
  - intros [= Hd]. by apply differing_zero.
  - intros ->. by rewrite differing_refl.
Qed.

Lemma hamming_zero_iff_equal_witness :
  hamming "cat" "cat" = Ok 0 ∧ (hamming "cat" "cot" = Ok 0 ↔ "cat" = "cot").
Proof. apply (hamming_zero_iff_equal "cat" "cot"). reflexivity. Defined.

(** X2: on two words of one length [hamming] is symmetric and returns at
    most that length. *)
Theorem hamming_symmetric (a b : string) :
  String.length a = String.length b →
  hamming a b = hamming b a
  ∧ ∃ n, hamming a b = Ok n ∧ n ≤ String.length a.
Proof.
  intros Hlen. rewrite !hamming_spec, !decide_False by lia.
  split; [by rewrite differing_sym|].
  exists (differing a b). split; [done|apply differing_le].
Qed.

Lemma hamming_symmetric_witness :
  hamming "todd" "john" = hamming "john" "todd"
  ∧ ∃ n, hamming "todd" "john" = Ok n ∧ n ≤ 4.
Proof. apply (hamming_symmetric "todd" "john"). reflexivity. Defined.

(** ** The neighbours handed out by [unvisited] *)

(** X3: on an index built by [__init__], [unvisited(w, visited)] holds
    exactly the input words of the index length that are no key of
    [visited] and differ from [w] in at most one position, [w] having the
    index length too and that length not being 0. *)
Theorem unvisited_one_letter_neighbours
    (words : list string) (sz : nat) (w : string) (V : gmap string nat)
    (c : string) :
  c ∈ unvisited (Graph_init words sz) w V
  ↔ V !! c = None ∧ c ∈ words ∧ String.length c = sz
    ∧ String.length w = sz ∧ 0 < sz ∧ differing w c ≤ 1.
Proof.
  rewrite elem_of_unvisited, share_pattern. split.
  - intros (HV & Hc & Hlen & Hw & Hpos & Hd). repeat split; (done || lia).
  - intros (HV & Hc & Hlen & Hw & Hpos & Hd). repeat split; (done || lia).
Qed.

(** X4: when the input words are pairwise distinct, a neighbour other than
    the word itself occurs exactly once in the result of [unvisited]. *)
Theorem unvisited_neighbour_once
    (words : list string) (sz : nat) (w : string) (V : gmap string nat)
    (c : string) :
  NoDup words → c ≠ w → c ∈ unvisited (Graph_init words sz) w V →
  occurrences c (unvisited (Graph_init words sz) w V) = 1.
Proof.
  intros Hnd Hcw Hc.
  apply elem_of_unvisited in Hc as (HV & Hin & Hlen & p0 & Hp0w & Hp0c).
  rewrite unvisited_spec.
  destruct (list_elem_of_split _ _ Hp0w) as (l1 & l2 & Hsplit).
  pose proof (patterns_NoDup w) as Hndp. rewrite Hsplit in Hndp.
  apply NoDup_app in Hndp as (_ & Hl1 & [Hl2 _]%NoDup_cons).
  assert (∀ p, p ∈ patterns w → p ≠ p0 →
            occurrences c (filter (λ c, V !! c = None)
                             (bucket_of words sz p)) = 0) as Hother.
  { intros [j q] Hpw Hne. apply occurrences_not_elem_of.
    intros [_ (_ & _ & Hpc)%elem_of_bucket_of]%list_elem_of_filter.
    destruct p0 as [i q0].
    apply elem_of_patterns_masked in Hpw as [Hj Hq], Hpc as [_ Hq'],
      Hp0w as [Hi Hq0], Hp0c as [_ Hq0'].
    simpl in *. subst q q0.
    destruct (decide (i = j)) as [->|Hij]; [done|].
    apply Hcw. symmetry. by apply (masked_twice i j). }
  rewrite Hsplit, bind_app, bind_cons, !occurrences_app.
  rewrite (occurrences_bind c _ l1 0), (occurrences_bind c _ l2 0).
  - rewrite !Nat.mul_0_r, occurrences_filter by done.
    unfold bucket_of. rewrite occurrences_filter by done.
    rewrite occurrences_NoDup by done. lia.
  - intros p Hp. apply Hother.
    + rewrite Hsplit. apply elem_of_app. right. by apply list_elem_of_further.
    + by intros ->.
  - intros p Hp. apply Hother.
    + rewrite Hsplit. apply elem_of_app. by left.
    + intros ->. apply (Hl1 p0 Hp), list_elem_of_here.
Qed.

Lemma unvisited_neighbour_once_witness :
  occurrences "cot"
    (unvisited (Graph_init ["cat"; "cot"; "cog"; "dog"] 3) "cat" ∅) = 1.
Proof.
  apply (unvisited_neighbour_once ["cat"; "cot"; "cog"; "dog"] 3 "cat" ∅).
  - apply (bool_decide_unpack _). by vm_compute.
  - done.
  - apply (bool_decide_unpack _). by vm_compute.
Defined.

(** ** The contents of the index *)

Lemma Graph_init_lookup_eq words sz k :
  word_patterns (Graph_init words sz) !! k
  = if decide (bucket_of words sz k = []) then None
    else Some (bucket_of words sz k).
Proof.
  destruct (word_patterns (Graph_init words sz) !! k) as [b|] eqn:Hk.
  - apply Graph_init_lookup in Hk as [-> Hne]. by rewrite decide_False.
  - case_decide as Hb; [done|].
    assert (word_patterns (Graph_init words sz) !! k
            = Some (bucket_of words sz k)) as Hk'
      by by apply Graph_init_lookup.
    congruence.
Qed.

(** X5: a bucket of the index is never empty, and under key [k] it holds the
    input words of the index length that have [k] among their patterns, in
    input order and as often as they occur in the input. *)
Theorem index_bucket_in_input_order
    (words : list string) (sz : nat) (k : nat * string) (b : list string) :
  word_patterns (Graph_init words sz) !! k = Some b
  ↔ b ≠ []
    ∧ b = filter (λ v, String.length v = sz ∧ k ∈ patterns v) words.
Proof.
  rewrite Graph_init_lookup. unfold bucket_of. tauto.
Qed.

(** X6: words of another length leave no trace in the index: it is the
    index of the words of the requested length alone; and it is empty
    exactly when the input holds no non-empty word of that length. *)
Theorem index_ignores_other_lengths (words : list string) (sz : nat) :
  Graph_init words sz
  = Graph_init (filter (λ w, String.length w = sz) words) sz
  ∧ (word_patterns (Graph_init words sz) = ∅
     ↔ ∀ w, w ∈ words → String.length w = sz → sz = 0).
Proof.
  split.
  - unfold Graph_init at 1 2. f_equal.
    apply map_eq. intros k.
    change (word_patterns (Graph_init words sz) !! k
            = word_patterns
                (Graph_init (filter (λ w, String.length w = sz) words) sz)
              !! k).
    rewrite !Graph_init_lookup_eq.
    assert (bucket_of (filter (λ w, String.length w = sz) words) sz k
            = bucket_of words sz k) as ->; [|done].
    unfold bucket_of. rewrite list_filter_filter.
    apply list_filter_iff. tauto.
  - split.
    + intros Hempty w Hw Hlen.
      destruct (decide (sz = 0)) as [|Hsz]; [done|]. exfalso.
      pose proof (Graph_init_lookup_eq words sz (0, masked 0 w)) as Hk.
      rewrite Hempty, lookup_empty in Hk.
      case_decide as Hb; [|done].
      assert (w ∈ bucket_of words sz (0, masked 0 w)) as Hin.
      { apply elem_of_bucket_of. split; [done|]. split; [done|].
        apply elem_of_patterns_masked. simpl. split; [lia|done]. }
      rewrite Hb in Hin. by apply not_elem_of_nil in Hin.
    + intros Hnone. apply map_eq. intros k.
      rewrite Graph_init_lookup_eq, lookup_empty.
      case_decide as Hb; [done|]. exfalso.
      destruct (bucket_of words sz k) as [|v l] eqn:Hbk; [done|].
      assert (v ∈ bucket_of words sz k) as Hv
        by (rewrite Hbk; apply list_elem_of_here).
      apply elem_of_bucket_of in Hv as (Hv & Hlen & Hp).
      apply elem_of_patterns_masked in Hp as [Hlt _].
      specialize (Hnone v Hv Hlen). lia.
Qed.

(** ** What a round does to the frontier *)

Lemma unvisited_adjacent g w (V : gmap string nat) c :
  c ∈ unvisited g w V ↔ adjacent g w c ∧ V !! c = None.
Proof.
  unfold adjacent. rewrite !unvisited_bucket, !list_elem_of_bind. split.
  - intros (p & [HV Hc]%list_elem_of_filter & Hp). split; [|done].
    exists p. split; [|done]. apply list_elem_of_filter. split; [|done].
    apply lookup_empty.
  - intros [(p & [_ Hc]%list_elem_of_filter & Hp) HV].
    exists p. split; [|done]. by apply list_elem_of_filter.
Qed.

Lemma closed_mono g (V V' : gmap string nat) w :
  dom V ⊆ dom V' → closed g V w → closed g V' w.
Proof. intros Hsub Hcl c Hc. by apply Hsub, Hcl. Qed.

Lemma heap_remove_other (m x : item) (h : list item) :
  x ∈ h → x ≠ m → x ∈ heap_remove m h.
Proof.
  induction h as [|y h IH]; intros Hx Hne; simpl; [done|].
  apply elem_of_cons in Hx as [->|Hx].
  - rewrite decide_False by done. apply list_elem_of_here.
  - case_decide; [done|]. apply list_elem_of_further. by apply IH.
Qed.

Lemma heappop_other (h h' : list item) (m x : item) :
  heappop h = Some (m, h') → x ∈ h → x = m ∨ x ∈ h'.
Proof.
  destruct h as [|y h]; [done|]. unfold heappop. intros [= <- <-] Hx.
  destruct (decide (x = heap_min y h)) as [|Hne]; [by left|right].
  exact (heap_remove_other (heap_min y h) x (y :: h) Hx Hne).
Qed.

Lemma expand_items end_ path adjs D st D' st' :
  expand end_ path adjs D st = Ok (D', st') →
  (∀ it, it ∈ frontier st' →
         it ∈ frontier st
         ∨ ∃ cost c, c ∈ adjs ∧ it = (cost, c, path ++ [c]))
  ∧ (∀ c, c ∈ adjs → ∃ cost, (cost, c, path ++ [c]) ∈ frontier st').
Proof.
  revert D st. induction adjs as [|c adjs IH]; intros D st.
  - intros [= <- <-]. split; [by left|]. by intros c ?%not_elem_of_nil.
  - cbn [expand].
    destruct (cost_increment path D) as [D1|]; [|done]. cbn [rbind].
    destruct (hamming c end_) as [h|]; [|done]. cbn [rbind].
    intros Hexp. destruct (IH _ _ Hexp) as [Hold Hnew].
    apply expand_Ok_inv in Hexp as (_ & _ & Hsub).
    cbn [frontier heappush] in *. split.
    + intros it Hit. destruct (Hold it Hit) as [Hin|(cost & c' & Hc' & ->)].
      * apply elem_of_cons in Hin as [->|Hin]; [right|by left].
        exists (D1 + h), c. split; [apply list_elem_of_here|done].
      * right. exists cost, c'. split; [by apply list_elem_of_further|done].
    + intros c' [->|Hc']%elem_of_cons; [|by apply Hnew].
      exists (D1 + h). apply Hsub, list_elem_of_here.
Qed.

Lemma step_round g end_ st st' :
  step g end_ st = Continue st' →
  ∃ D w path fr D',
    heappop (frontier st) = Some ((D, w, path), fr) ∧ w ≠ end_
    ∧ expand end_ path (unvisited g w (visited st)) D
        {| visited := visited st; frontier := fr |} = Ok (D', st').
Proof.
  unfold step. intros Hstep.
  destruct (heappop (frontier st)) as [[[[D w] path] fr]|]; [|done].
  case_decide; [done|].
  destruct (expand _ _ _ _ _) as [[D' st'']|] eqn:Hexp; [|done].
  injection Hstep as ->. eauto 10.
Qed.

Lemma round_closed g end_ path w D (V : gmap string nat) fr D' st' :
  expand end_ path (unvisited g w V) D {| visited := V; frontier := fr |}
  = Ok (D', st') →
  dom V ⊆ dom (visited st') ∧ closed g (visited st') w.
Proof.
  intros (Hdom & _ & _)%expand_Ok_inv. cbn [visited] in Hdom.
  split; [set_solver|]. intros c Hc. rewrite Hdom.
  destruct (V !! c) as [x|] eqn:HV.
  - apply elem_of_union_l, elem_of_dom. eauto.
  - apply elem_of_union_r, elem_of_list_to_set, unvisited_adjacent. done.
Qed.

Lemma run_S_start g end_ n start st :
  run g end_ (S n) (initial start) = Some st → start ≠ end_.
Proof.
  simpl. unfold step, initial, heappush, heappop. cbn [frontier heap_min].
  case_decide as Hse; [done|]. done.
Qed.

(** ** Paths in the frontier are chains *)

Lemma chain_snoc g path w c :
  chain g path → last path = Some w → adjacent g w c → w ≠ c →
  chain g (path ++ [c]).
Proof.
  intros Hch Hlast Hadj Hne i a b Ha Hb.
  assert (S i < length (path ++ [c])) as Hlt by by eapply lookup_lt_Some.
  rewrite length_app in Hlt. simpl in Hlt.
  rewrite lookup_app_l in Ha by lia.
  destruct (decide (S i < length path)) as [Hin|Hout].
  - rewrite lookup_app_l in Hb by done. by apply (Hch i).
  - rewrite lookup_app_r in Hb by lia.
    replace (S i - length path) with 0 in Hb by lia. injection Hb as <-.
    rewrite last_lookup in Hlast.
    replace (pred (length path)) with i in Hlast by lia.
    rewrite Ha in Hlast. by injection Hlast as ->.
Qed.

Lemma good_item_mono g start (V V' : gmap string nat) it :
  dom V ⊆ dom V' → good_item g start V it → good_item g start V' it.
Proof.
  intros Hsub (Hlast & Hhead & Hcase). split; [done|]. split; [done|].
  destruct Hcase as [?|[[? Hcl]|(Hkey & ? & ? & Htl & Hcl)]]; [by left| |].
  - right; left. split; [done|]. by eapply closed_mono.
  - right; right. split; [by apply Hsub|]. split; [done|]. split; [done|].
    split; [|by eapply closed_mono]. intros x Hx. by apply Hsub, Htl.
Qed.

Lemma step_good_items g start end_ st st' :
  (∀ w c, adjacent g w c → adjacent g c c) →
  step g end_ st = Continue st' →
  (∀ it, it ∈ frontier st → good_item g start (visited st) it) →
  ∀ it, it ∈ frontier st' → good_item g start (visited st') it.
Proof.
  intros Hrefl (D & w & path & fr & D' & Hpop & Hne & Hexp)%step_round Hgood.
  destruct (round_closed _ _ _ _ _ _ _ _ _ Hexp) as [Hsub Hcl].
  destruct (expand_items _ _ _ _ _ _ _ Hexp) as [Hold _].
  pose proof (expand_Ok_inv _ _ _ _ _ _ _ Hexp) as (Hdom & _ & _).
  cbn [visited frontier] in *.
  apply heappop_elem in Hpop as [Hin Hfr].
  destruct (Hgood _ Hin) as (Hlast & Hhead & Hcase). cbn [fst snd] in *.
  intros it Hit. destruct (Hold it Hit) as [Hit'|(cost & c & Hc & ->)].
  { eapply good_item_mono; [done|]. apply Hgood, Hfr, Hit'. }
  apply unvisited_adjacent in Hc as Hadj. destruct Hadj as [Hadj Hnew].
  assert (c ∈ dom (visited st')) as Hkey.
  { rewrite Hdom. by apply elem_of_union_r, elem_of_list_to_set. }
  split; [apply last_snoc|]. cbn [fst snd].
  split; [by destruct path|].
  destruct Hcase as [->|[[-> Hcls]|(Hw & Hch & Hnd & Htl & Hcls)]].
  - injection Hlast as <-.
    destruct (decide (c = start)) as [->|Hcs].
    + right; left. done.
    + right; right. split; [done|]. split; [|split; [|split; [|done]]].
      * intros [|i] a b; simpl; [|done]. intros [= <-] [= <-]. done.
      * apply NoDup_cons. split; [|apply NoDup_singleton].
        by intros ?%list_elem_of_singleton.
      * simpl. by intros x ->%list_elem_of_singleton.
  - injection Hlast as <-. exfalso.
    apply not_elem_of_dom in Hnew. by apply Hnew, Hcls.
  - apply not_elem_of_dom in Hnew.
    assert (c ≠ start) as Hcs.
    { intros ->. apply Hnew, Hcls. by apply (Hrefl w). }
    right; right. split; [done|]. split; [|split; [|split]].
    + apply (chain_snoc g path w c); [done..|]. by intros ->.
    + destruct path as [|x path]; [done|]. injection Hhead as ->.
      apply NoDup_app. split; [done|]. split; [|apply NoDup_singleton].
      intros y Hy ->%list_elem_of_singleton.
      apply elem_of_cons in Hy as [->|Hy]; [done|]. by apply Hnew, Htl.
    + destruct path as [|x path]; [done|]. simpl.
      intros y [Hy| ->%list_elem_of_singleton]%elem_of_app; [|done].
      by apply Hsub, Htl.
    + by eapply closed_mono.
Qed.

Lemma run_good_items g start end_ n st :
  (∀ w c, adjacent g w c → adjacent g c c) →
  run g end_ n (initial start) = Some st →
  ∀ it, it ∈ frontier st → good_item g start (visited st) it.
Proof.
  intros Hrefl.
  assert (∀ st0, (∀ it, it ∈ frontier st0 →
                        good_item g start (visited st0) it) →
                 run g end_ n st0 = Some st →
                 ∀ it, it ∈ frontier st →
                       good_item g start (visited st) it) as Hgen.
  { induction n as [|n IH]; intros st0 H0; simpl.
    - by intros [= <-].
    - destruct (step g end_ st0) as [st1|] eqn:Hstep; [|done].
      apply IH. by eapply step_good_items. }
  apply Hgen. intros it Hit. unfold initial, heappush in Hit.
  cbn [frontier] in Hit. apply list_elem_of_singleton in Hit as ->.
  split; [done|]. split; [done|]. by left.
Qed.

Lemma min_path_chain g start end_ fuel path :
  (∀ w c, adjacent g w c → adjacent g c c) →
  min_path fuel g start end_ = Some (Ok (Some path)) →
  head path = Some start ∧ last path = Some end_
  ∧ ((path = [start] ∧ start = end_)
     ∨ (start ≠ end_ ∧ chain g path ∧ NoDup path)).
Proof.
  intros Hrefl (n & st & _ & Hrun & Hdone)%loop_run.
  apply step_Done_Some in Hdone as (D & fr & Hpop).
  apply heappop_elem in Hpop as [Hin _].
  destruct (run_good_items g start end_ n st Hrefl Hrun _ Hin)
    as (Hlast & Hhead & Hcase). cbn [fst snd] in *.
  split; [done|]. split; [done|].
  destruct Hcase as [->|[[-> _]|(_ & Hch & Hnd & _)]].
  - left. split; [done|]. by injection Hlast.
  - injection Hlast as <-. destruct n as [|n].
    + injection Hrun as <-. unfold initial, heappush in Hin.
      cbn [frontier] in Hin. by apply list_elem_of_singleton in Hin.
    + by apply run_S_start in Hrun.
  - destruct (decide (start = end_)) as [<-|Hne]; [|right; done].
    destruct n as [|n].
    + injection Hrun as <-. unfold initial, heappush in Hin.
      cbn [frontier] in Hin. apply list_elem_of_singleton in Hin.
      injection Hin as _ ->. by left.
    + by apply run_S_start in Hrun.
Qed.

Lemma adjacent_Graph_init words sz w c :
  adjacent (Graph_init words sz) w c
  ↔ c ∈ words ∧ String.length c = sz ∧ String.length w = sz
    ∧ 0 < sz ∧ differing w c ≤ 1.
Proof.
  unfold adjacent. rewrite elem_of_unvisited, share_pattern, lookup_empty.
  split.
  - intros (_ & Hc & Hlen & Hw & Hpos & Hd). repeat split; (done || lia).
  - intros (Hc & Hlen & Hw & Hpos & Hd). repeat split; (done || lia).
Qed.

Lemma adjacent_Graph_init_refl words sz w c :
  adjacent (Graph_init words sz) w c → adjacent (Graph_init words sz) c c.
Proof.
  rewrite !adjacent_Graph_init, differing_refl.
  intros (? & ? & ? & ? & ?). repeat split; (done || lia).
Qed.

Lemma chain_ladder words sz path :
  chain (Graph_init words sz) path →
  ladder path
  ∧ ∀ w, w ∈ tail path → w ∈ words ∧ String.length w = sz.
Proof.
  intros Hch. split.
  - intros i a b Ha Hb. destruct (Hch i a b Ha Hb) as [Hadj Hne].
    apply adjacent_Graph_init in Hadj as (_ & Hb' & Ha' & _ & Hd).
    split; [congruence|].
    destruct (differing a b) as [|[|d]] eqn:Hdiff; [|done|lia].
    exfalso. apply Hne, differing_zero; [congruence|done].
  - intros w [i Hi]%list_elem_of_lookup. rewrite lookup_tail in Hi.
    assert (is_Some (path !! i)) as [a Ha].
    { apply lookup_lt_is_Some. apply lookup_lt_Some in Hi. lia. }
    destruct (Hch i a w Ha Hi) as [Hadj _].
    apply adjacent_Graph_init in Hadj. tauto.
Qed.

(** X7: a path returned by [min_path] on an index built by [__init__] is a
    word ladder: it starts with the start word and ends with the end word,
    any two consecutive words have one length and differ in exactly one
    position, every word after the first is an input word of the index
    length, and no word occurs twice. *)
Theorem min_path_returns_ladder
    (words : list string) (sz : nat) (start end_ : string) (fuel : nat)
    (path : list string) :
  min_path fuel (Graph_init words sz) start end_ = Some (Ok (Some path)) →
  head path = Some start
  ∧ last path = Some end_
  ∧ ladder path
  ∧ (∀ w, w ∈ tail path → w ∈ words ∧ String.length w = sz)
  ∧ NoDup path.
Proof.
  intros (Hhead & Hlast & Hcase)%min_path_chain;
    [|apply adjacent_Graph_init_refl].
  split; [done|]. split; [done|].
  destruct Hcase as [[-> _]|(_ & Hch & Hnd)].
  - split; [by intros [|i] a b|].
    split; [by intros w ?%not_elem_of_nil|apply NoDup_singleton].
  - destruct (chain_ladder words sz path Hch). done.
Qed.

Lemma min_path_returns_ladder_witness :
  head ["cat"; "cot"; "cog"; "dog"] = Some "cat"
  ∧ last ["cat"; "cot"; "cog"; "dog"] = Some "dog"
  ∧ ladder ["cat"; "cot"; "cog"; "dog"]
  ∧ (∀ w, w ∈ tail ["cat"; "cot"; "cog"; "dog"] →
          w ∈ ["dog"; "cog"; "cot"; "cat"] ∧ String.length w = 3)
  ∧ NoDup ["cat"; "cot"; "cog"; "dog"].
Proof.
  apply (min_path_returns_ladder ["dog"; "cog"; "cot"; "cat"] 3
           "cat" "dog" 7).
  by vm_compute.
Defined.

(** ** The search finds a ladder exactly when there is one *)

Lemma step_served g start end_ st st' :
  step g end_ st = Continue st' →
  (∀ w, w ∈ dom (visited st) ∨ w = start → served g end_ st w) →
  ∀ w, w ∈ dom (visited st') ∨ w = start → served g end_ st' w.
Proof.
  intros (D & w0 & path & fr & D' & Hpop & Hne & Hexp)%step_round Hserved.
  destruct (round_closed _ _ _ _ _ _ _ _ _ Hexp) as [Hsub Hcl].
  destruct (expand_items _ _ _ _ _ _ _ Hexp) as [_ Hnew].
  pose proof (expand_Ok_inv _ _ _ _ _ _ _ Hexp) as (Hdom & _ & Hfr).
  cbn [visited frontier] in *.
  assert (∀ w, served g end_ st w → served g end_ st' w) as Hkeep.
  { intros w [(D1 & p1 & Hin)|[Hwe Hwc]].
    - destruct (heappop_other _ _ _ _ Hpop Hin) as [[= -> -> ->]|Hin'].
      + right. done.
      + left. exists D1, p1. by apply Hfr.
    - right. split; [done|]. by eapply closed_mono. }
  intros w [Hw| ->]; [|by apply Hkeep, Hserved; right].
  rewrite Hdom in Hw. apply elem_of_union in Hw as [Hw|Hw].
  - apply Hkeep, Hserved. by left.
  - apply elem_of_list_to_set in Hw. destruct (Hnew w Hw) as [cost Hin].
    left. eauto.
Qed.

Lemma run_served g start end_ n st :
  run g end_ n (initial start) = Some st →
  ∀ w, w ∈ dom (visited st) ∨ w = start → served g end_ st w.
Proof.
  assert (∀ st0, (∀ w, w ∈ dom (visited st0) ∨ w = start →
                       served g end_ st0 w) →
                 run g end_ n st0 = Some st →
                 ∀ w, w ∈ dom (visited st) ∨ w = start →
                      served g end_ st w) as Hgen.
  { induction n as [|n IH]; intros st0 H0; simpl.
    - by intros [= <-].
    - destruct (step g end_ st0) as [st1|] eqn:Hstep; [|done].
      apply IH. by eapply step_served. }
  apply Hgen. intros w [Hw| ->].
  - unfold initial in Hw. cbn [visited] in Hw.
    rewrite dom_empty_L in Hw. by apply not_elem_of_empty in Hw.
  - left. exists 0, [start]. apply list_elem_of_here.
Qed.

Lemma exhausted_unreachable g start end_ n st :
  run g end_ n (initial start) = Some st → frontier st = [] →
  ¬ rtc (adjacent g) start end_.
Proof.
  intros Hrun Hnil Hreach.
  pose proof (run_served g start end_ n st Hrun) as Hserved.
  assert (∀ w, w ∈ dom (visited st) ∨ w = start →
               w ≠ end_ ∧ closed g (visited st) w) as Hdone.
  { intros w Hw. destruct (Hserved w Hw) as [(D & p & Hin)|?]; [|done].
    rewrite Hnil in Hin. by apply not_elem_of_nil in Hin. }
  assert (end_ ∈ dom (visited st) ∨ end_ = start) as Hend.
  { apply (rtc_ind_r (R := adjacent g)
             (λ z, z ∈ dom (visited st) ∨ z = start) start);
      [by right| |done].
    intros y z Hy Hyz IH. left. by apply (Hdone y IH). }
  by destruct (Hdone end_ Hend).
Qed.

Lemma chain_rtc g path a b :
  chain g path → head path = Some a → last path = Some b →
  rtc (adjacent g) a b.
Proof.
  revert a. induction path as [|x path IH]; intros a Hch; [done|].
  intros [= ->]. destruct path as [|y path].
  - by intros [= ->].
  - intros Hlast. apply (rtc_l _ _ y).
    + by apply (Hch 0 a y).
    + apply IH; [|done..]. intros i c d Hc Hd. by apply (Hch (S i)).
Qed.

Lemma min_path_no_raise words sz start end_ r fuel :
  sz ≤ String.length end_ →
  min_path fuel (Graph_init words sz) start end_ = Some r →
  ∃ o, r = Ok o.
Proof.
  intros Hlen (n & st & _ & Hrun & Hdone)%loop_run.
  destruct r as [o|e]; [by exists o|]. exfalso.
  apply step_Raise_length in Hdone as [_ Hlt]; [lia|].
  eapply run_nonempty_paths; [|done]. apply initial_nonempty_paths.
Qed.

(** X8: on an index built by [__init__], [min_path] answers the question
    whether the end word can be reached from the start word through
    neighbours of the index: [None] is returned only if it cannot, a path
    only if it can; and when the end word is not shorter than the indexed
    words the search returns one of the two, a path exactly when the end
    word can be reached. *)
Theorem min_path_decides_reachability
    (words : list string) (sz : nat) (start end_ : string) :
  let g := Graph_init words sz in
  (∀ fuel, min_path fuel g start end_ = Some (Ok None) →
           ¬ rtc (adjacent g) start end_)
  ∧ (∀ fuel path, min_path fuel g start end_ = Some (Ok (Some path)) →
                  rtc (adjacent g) start end_)
  ∧ (sz ≤ String.length end_ →
     ∃ o, (∀ fuel, search_bound words sz < fuel →
                   min_path fuel g start end_ = Some (Ok o))
          ∧ (is_Some o ↔ rtc (adjacent g) start end_)).
Proof.
  intros g.
  assert (∀ fuel, min_path fuel g start end_ = Some (Ok None) →
                  ¬ rtc (adjacent g) start end_) as Hnone.
  { intros fuel (n & st & _ & Hrun & Hdone)%loop_run.
    apply step_Done_None in Hdone. by eapply exhausted_unreachable. }
  assert (∀ fuel path, min_path fuel g start end_ = Some (Ok (Some path)) →
                       rtc (adjacent g) start end_) as Hsome.
  { intros fuel path (Hhead & Hlast & Hcase)%min_path_chain;
      [|apply adjacent_Graph_init_refl].
    destruct Hcase as [[_ ->]|(_ & Hch & _)]; [done|]. by eapply chain_rtc. }
  split; [done|]. split; [done|]. intros Hlen.
  destruct (min_path_total words sz end_ start) as [r Hr].
  destruct (min_path_no_raise words sz start end_ r _ Hlen Hr) as [o ->].
  exists o. split.
  - intros fuel Hfuel. apply (loop_fuel_mono _ _ _ _ _ _ Hr). lia.
  - destruct o as [path|]; split.
    + intros _. by eapply Hsome.
    + by eauto.
    + by intros [? ?].
    + intros Hreach. by apply Hnone in Hr.
Qed.

Lemma min_path_decides_reachability_witness :
  ∃ o, (∀ fuel, search_bound ["cat"; "cot"; "cog"; "dog"] 3 < fuel →
                min_path fuel (Graph_init ["cat"; "cot"; "cog"; "dog"] 3)
                  "cat" "dog" = Some (Ok o))
       ∧ (is_Some o
          ↔ rtc (adjacent (Graph_init ["cat"; "cot"; "cog"; "dog"] 3))
                "cat" "dog").
Proof.
  apply (proj2 (proj2 (min_path_decides_reachability
                         ["cat"; "cot"; "cog"; "dog"] 3 "cat" "dog"))).
  simpl. lia.
Defined.

(** ** The first round *)

Lemma step_initial g start end_ :
  step g end_ (initial start)
  = if decide (start = end_) then Done (Ok (Some [start]))
    else match expand end_ [start] (unvisited g start ∅) 0
                 {| visited := ∅; frontier := [] |} with
         | Raise e => Done (Raise e)
         | Ok (_, st') => Continue st'
         end.
Proof.
  unfold step, initial, heappush, heappop. cbn [frontier visited heap_min].
  cbn [heap_remove]. by rewrite (decide_True (P := (0, start, [start]) = _)).
Qed.

Lemma cost_increment_start start D : cost_increment [start] D = Ok D.
Proof.
  destruct (py_index_singleton start) as [Ha Hb].
  rewrite (cost_increment_differing [start] D start start Ha Hb).
  by rewrite differing_refl, Nat.add_0_r.
Qed.

Lemma first_round end_ start adjs st D' st' :
  expand end_ [start] adjs 0 st = Ok (D', st') →
  D' = 0
  ∧ (∀ c h, hamming c end_ = Ok h → visited st !! c = Some h →
            visited st' !! c = Some h)
  ∧ (∀ c, c ∈ adjs →
          ∃ h, hamming c end_ = Ok h ∧ visited st' !! c = Some h
               ∧ (h, c, [start; c]) ∈ frontier st').
Proof.
  revert st. induction adjs as [|c adjs IH]; intros st.
  - intros [= <- <-]. split; [done|]. split; [done|].
    by intros c ?%not_elem_of_nil.
  - cbn [expand]. rewrite cost_increment_start. cbn [rbind].
    destruct (hamming c end_) as [h|] eqn:Hh; [|done]. cbn [rbind].
    intros Hexp. destruct (IH _ Hexp) as (-> & Hkeep & Hnew).
    apply expand_Ok_inv in Hexp as (_ & _ & Hsub).
    cbn [visited frontier heappush] in *.
    split; [done|]. split.
    + intros c' h' Hh' Hc'. apply Hkeep; [done|].
      destruct (decide (c = c')) as [<-|Hne].
      * rewrite lookup_insert_eq. simpl. congruence.
      * by rewrite lookup_insert_ne.
    + intros c' [->|Hc']%elem_of_cons; [|by apply Hnew].
      exists h. split; [done|]. split.
      * apply Hkeep; [done|]. by rewrite lookup_insert_eq.
      * apply Hsub, list_elem_of_here.
Qed.

(** X9: in the first round nothing is added to the distance (the path
    [[start]] is compared with itself): when the round completes, the keys
    of [visited] are the neighbours of the start word, each recorded with
    its plain [hamming] distance to the end word and queued with that cost
    behind the start word. *)
Theorem first_round_costs (g : Graph) (start end_ : string) (st' : state) :
  step g end_ (initial start) = Continue st' →
  dom (visited st') = list_to_set (unvisited g start ∅)
  ∧ ∀ c, c ∈ unvisited g start ∅ →
         ∃ h, hamming c end_ = Ok h ∧ visited st' !! c = Some h
              ∧ (h, c, [start; c]) ∈ frontier st'.
Proof.
  rewrite step_initial. case_decide; [done|].
  destruct (expand _ _ _ _ _) as [[D' st'']|] eqn:Hexp; [|done].
  intros [= ->]. split.
  - apply expand_Ok_inv in Hexp as (Hdom & _ & _). cbn [visited] in Hdom.
    rewrite Hdom, dom_empty_L. set_solver.
  - by apply first_round in Hexp as (_ & _ & Hnew).
Qed.

Lemma first_round_costs_witness :
  ∃ st',
    step (Graph_init ["cat"; "cot"; "cog"; "dog"] 3) "dog" (initial "cat")
    = Continue st'
    ∧ dom (visited st')
      = list_to_set
          (unvisited (Graph_init ["cat"; "cot"; "cog"; "dog"] 3) "cat" ∅)
    ∧ ∀ c, c ∈ unvisited (Graph_init ["cat"; "cot"; "cog"; "dog"] 3) "cat" ∅ →
           ∃ h, hamming c "dog" = Ok h ∧ visited st' !! c = Some h
                ∧ (h, c, ["cat"; c]) ∈ frontier st'.
Proof.
  eexists. split; [vm_compute; reflexivity|].
  apply (first_round_costs (Graph_init ["cat"; "cot"; "cog"; "dog"] 3)
           "cat" "dog").
  vm_compute. reflexivity.
Defined.

(** ** When the search raises, and when it gives up at once *)

Lemma expand_short_end end_ start c cs st :
  String.length end_ < String.length c →
  expand end_ [start] (c :: cs) 0 st = Raise IndexError.
Proof.
  intros Hlt. cbn [expand]. rewrite cost_increment_start. cbn [rbind].
  by rewrite hamming_spec, decide_True.
Qed.

Lemma unvisited_head_length words sz w (V : gmap string nat) c cs :
  unvisited (Graph_init words sz) w V = c :: cs → String.length c = sz.
Proof.
  intros Hcs.
  assert (c ∈ unvisited (Graph_init words sz) w V) as Hin
    by (rewrite Hcs; apply list_elem_of_here).
  apply elem_of_unvisited in Hin. tauto.
Qed.

(** X10: on an index built by [__init__], [min_path] raises exactly when
    the start word differs from the end word, has a neighbour in the index,
    and the end word is shorter than the indexed words; the exception is the
    [IndexError] of [hamming], raised in the first round. *)
Theorem min_path_raises_iff
    (words : list string) (sz : nat) (start end_ : string) (fuel : nat)
    (e : exn) :
  min_path (S fuel) (Graph_init words sz) start end_ = Some (Raise e)
  ↔ e = IndexError ∧ start ≠ end_ ∧ String.length end_ < sz
    ∧ unvisited (Graph_init words sz) start ∅ ≠ [].
Proof.
  split.
  - intros (n & st & _ & Hrun & Hdone)%loop_run.
    assert (e = IndexError ∧ String.length end_ < sz) as [-> Hlt].
    { eapply step_Raise_length; [|done].
      eapply run_nonempty_paths; [|done]. apply initial_nonempty_paths. }
    split; [done|]. destruct n as [|n].
    + injection Hrun as <-. rewrite step_initial in Hdone.
      case_decide; [done|]. split; [done|]. split; [done|].
      intros Hnil. by rewrite Hnil in Hdone.
    + exfalso. simpl in Hrun. rewrite step_initial in Hrun.
      case_decide; [done|].
      destruct (unvisited (Graph_init words sz) start ∅) as [|c cs] eqn:Hcs.
      * cbn [expand] in Hrun. destruct n as [|n].
        -- injection Hrun as <-. done.
        -- done.
      * apply unvisited_head_length in Hcs.
        rewrite expand_short_end in Hrun by lia. done.
  - intros (-> & Hne & Hlt & Hcands).
    unfold min_path. cbn [min_path_loop]. rewrite step_initial.
    rewrite decide_False by done.
    destruct (unvisited (Graph_init words sz) start ∅) as [|c cs] eqn:Hcs;
      [done|].
    apply unvisited_head_length in Hcs.
    by rewrite expand_short_end by lia.
Qed.

(** X11: when the start word is not the end word and has no neighbour in
    the index (its length is not the index length, or the index length is
    0, or every input word of the index length differs from it in more than
    one position, as with an empty dictionary), [min_path] returns [None]
    after popping the start item. *)
Theorem min_path_isolated_start
    (words : list string) (sz : nat) (start end_ : string) (fuel : nat) :
  start ≠ end_ →
  (String.length start ≠ sz ∨ sz = 0
   ∨ ∀ c, c ∈ words → String.length c = sz → 1 < differing start c) →
  min_path (S (S fuel)) (Graph_init words sz) start end_ = Some (Ok None).
Proof.
  intros Hne Hiso.
  assert (unvisited (Graph_init words sz) start ∅ = []) as Hnil.
  { destruct (unvisited _ start ∅) as [|c cs] eqn:Hcs; [done|]. exfalso.
    assert (adjacent (Graph_init words sz) start c) as Hadj.
    { unfold adjacent. rewrite Hcs. apply list_elem_of_here. }
    apply adjacent_Graph_init in Hadj as (Hc & Hlen & Hs & Hpos & Hd).
    destruct Hiso as [?|[?|Hfar]]; [lia..|].
    specialize (Hfar c Hc Hlen). lia. }
  unfold min_path. cbn [min_path_loop]. rewrite step_initial.
  rewrite decide_False by done. rewrite Hnil. done.
Qed.

Lemma min_path_isolated_start_witness :
  min_path 2 (Graph_init ["cat"; "cot"] 3) "goat" "cot" = Some (Ok None)
  ∧ min_path 2 (Graph_init [] 3) "cat" "cot" = Some (Ok None).
Proof.
  split.
  - apply (min_path_isolated_start ["cat"; "cot"] 3 "goat" "cot" 0); [done|].
    left. simpl. lia.
  - apply (min_path_isolated_start [] 3 "cat" "cot" 0); [done|].
    right; right. by intros c ?%not_elem_of_nil.
Defined.

Lemma min_path_raises_iff_witness :
  min_path 1 (Graph_init ["cat"; "cot"; "cog"; "dog"] 3) "cat" "do"
  = Some (Raise IndexError).
Proof.
  apply (proj2 (min_path_raises_iff
                  ["cat"; "cot"; "cog"; "dog"] 3 "cat" "do" 0 IndexError)).
  split; [done|]. split; [done|]. split; [simpl; lia|]. by vm_compute.
Defined.

(** ** What a round leaves in [visited] *)

Lemma expand_visited_other end_ path adjs D st D' st' x :
  x ∉ adjs → expand end_ path adjs D st = Ok (D', st') →
  visited st' !! x = visited st !! x.
Proof.
  revert D st. induction adjs as [|c adjs IH]; intros D st Hx.
  - by intros [= <- <-].
  - apply not_elem_of_cons in Hx as [Hne Hx]. cbn [expand].
    destruct (cost_increment path D) as [D1|]; [|done]. cbn [rbind].
    destruct (hamming c end_) as [h|]; [|done]. cbn [rbind].
    intros Hexp. rewrite (IH _ _ Hx Hexp). cbn [visited].
    by rewrite lookup_insert_ne.
Qed.

(** X12: a round overwrites: when it completes, a key that is no candidate
    keeps its value, and a candidate holds the cost computed at its last
    occurrence among the candidates, [D + (k+1) * d + hamming(c, end)] for
    the last index [k] at which it occurs. *)
Theorem round_records_last_cost
    (end_ : string) (P : list string) (a b : string)
    (cands : list string) (D : nat) (st : state) :
  py_index P (Z.of_nat (length P) - 1) = Ok a →
  py_index P (Z.of_nat (length P) - 2) = Ok b →
  Forall (λ c, String.length c ≤ String.length end_) cands →
  ∃ st',
    expand end_ P cands D st = Ok (D + length cands * differing a b, st')
    ∧ (∀ x, x ∉ cands → visited st' !! x = visited st !! x)
    ∧ ∀ k c, cands !! k = Some c → c ∉ drop (S k) cands →
        ∃ h, hamming c end_ = Ok h
             ∧ visited st' !! c = Some (D + S k * differing a b + h).
Proof.
  intros Ha Hb Hall.
  destruct (expand_Ok end_ P a b cands D st Ha Hb Hall) as [st' Hexp].
  exists st'. split; [done|]. split.
  { intros x Hx. by eapply expand_visited_other. }
  intros k c Hk Hlast.
  assert (String.length c ≤ String.length end_) as Hc
    by exact (proj1 (Forall_lookup _ _) Hall k c Hk).
  assert (k < length cands) as Hlt by by eapply lookup_lt_Some.
  assert (Forall (λ c, String.length c ≤ String.length end_) (take k cands))
    as Hallk by by apply Forall_take.
  destruct (expand_Ok end_ P a b (take k cands) D st Ha Hb Hallk)
    as [stk Hk0].
  rewrite length_take_le in Hk0 by lia.
  exists (differing c end_).
  split; [by rewrite hamming_spec, decide_False by lia|].
  rewrite <- (take_drop (S k) cands), (take_S_r _ _ _ Hk) in Hexp.
  rewrite expand_app, expand_app, Hk0 in Hexp.
  cbn [rbind fst snd expand] in Hexp.
  rewrite (cost_increment_differing _ _ a b) in Hexp by done.
  rewrite hamming_spec, decide_False in Hexp by lia.
  cbn [rbind fst snd] in Hexp.
  rewrite (expand_visited_other _ _ _ _ _ _ _ c Hlast Hexp).
  cbn [visited]. rewrite lookup_insert_eq. f_equal. lia.
Qed.

(** The candidates [cog; cob; cog] of a round with [D = 2] and [d = 1]:
    [cog] is recorded with the cost of its second occurrence. *)
Lemma round_records_last_cost_witness :
  ∃ st',
    expand "dog" ["cat"; "cot"] ["cog"; "cob"; "cog"] 2
      {| visited := ∅; frontier := [] |}
    = Ok (2 + 3 * differing "cot" "cat", st')
    ∧ visited st' !! "cog" = Some 6
    ∧ visited st' !! "cob" = Some 6.
Proof.
  destruct (round_records_last_cost "dog" ["cat"; "cot"] "cot" "cat"
              ["cog"; "cob"; "cog"] 2 {| visited := ∅; frontier := [] |}
              eq_refl eq_refl) as (st' & Hexp & _ & Hcost).
  { repeat constructor. }
  exists st'. split; [done|]. split.
  - destruct (Hcost 2 "cog" eq_refl) as (h & Hh & ->).
    + by intros ?%not_elem_of_nil.
    + by injection Hh as <-.
  - destruct (Hcost 1 "cob" eq_refl) as (h & Hh & ->).
    + simpl. by intros [=]%list_elem_of_singleton.
    + by injection Hh as <-.
Defined.

(** ** [main] on words of one length *)

Lemma min_path_outcome words sz start end_ fuel :
  sz ≤ String.length end_ → search_bound words sz < fuel →
  ∃ o, min_path fuel (Graph_init words sz) start end_ = Some (Ok o)
       ∧ match o with
         | None => ¬ rtc (adjacent (Graph_init words sz)) start end_
         | Some path =>
             rtc (adjacent (Graph_init words sz)) start end_
             ∧ head path = Some start ∧ last path = Some end_
             ∧ ladder path ∧ NoDup path
             ∧ ∀ w, w ∈ tail path → w ∈ words ∧ String.length w = sz
         end.
Proof.
  intros Hlen Hfuel.
  destruct (min_path_total words sz end_ start) as [r Hr].
  destruct (min_path_no_raise words sz start end_ r _ Hlen Hr) as [o ->].
  exists o. split; [apply (loop_fuel_mono _ _ _ _ _ _ Hr); lia|].
  destruct o as [path|].
  - apply min_path_chain in Hr as (Hhead & Hlast & Hcase);
      [|apply adjacent_Graph_init_refl].
    destruct Hcase as [[-> ->]|(_ & Hch & Hnd)].
    + split; [done|]. split; [done|]. split; [done|].
      split; [by intros [|i] a b|]. split; [apply NoDup_singleton|].
      by intros w ?%not_elem_of_nil.
    + split; [by eapply chain_rtc|]. split; [done|]. split; [done|].
      destruct (chain_ladder words sz path Hch). done.
  - apply loop_run in Hr as (n & st & _ & Hrun & Hdone).
    apply step_Done_None in Hdone. by eapply exhausted_unreachable.
Qed.

(** X13: called with two words that have one length after lowercasing,
    [main] raises nothing, whatever the case mappings: with fuel beyond the
    search bound it builds the index over the words and the end word, runs
    the search, and returns the no-ladder message when the end word cannot
    be reached from the start word through neighbours of the index, and
    otherwise the ladder message over a ladder from the start word to the
    end word whose words after the first are words of that dictionary. *)
Theorem main_answers
    (lower upper : string → string)
    (fuel : nat) (dictionary : gset string) (start end_ : string)
    (words : option (gset string)) :
  String.length (lower start) = String.length (lower end_) →
  let sz := String.length (lower start) in
  let ws := match words with None => dictionary | Some ws => ws end in
  let ws' := if decide (lower end_ ∉ ws) then {[lower end_]} ∪ ws else ws in
  let g := Graph_init (elements ws') sz in
  search_bound (elements ws') sz < fuel →
  ∃ out,
    main lower upper fuel dictionary start end_ words
    = Some (match words with None => [EvOpenDictionary] | Some _ => [] end
            ++ [EvGraphInit (elements ws') sz;
                EvMinPath (lower start) (lower end_)],
            Ok out)
    ∧ ((¬ rtc (adjacent g) (lower start) (lower end_)
        ∧ out = "No word ladder exists from " +:+ upper (lower start)
                +:+ " to " +:+ upper (lower end_))
       ∨ (rtc (adjacent g) (lower start) (lower end_)
          ∧ ∃ word_ladder,
              out = "Shortest Word Ladder: "
                    +:+ foldl (λ words i, words +:+ upper i +:+ " ")
                              "" word_ladder
              ∧ head word_ladder = Some (lower start)
              ∧ last word_ladder = Some (lower end_)
              ∧ ladder word_ladder ∧ NoDup word_ladder
              ∧ ∀ w, w ∈ tail word_ladder →
                     w ∈ ws' ∧ String.length w = sz)).
Proof.
  intros Hlen sz ws ws' g Hfuel.
  destruct (min_path_outcome (elements ws') sz (lower start) (lower end_)
              fuel) as (o & Hmp & Ho); [subst sz; lia|done|].
  assert (∀ path, (∀ w, w ∈ tail path →
                        w ∈ elements ws' ∧ String.length w = sz) →
                  ∀ w, w ∈ tail path → w ∈ ws' ∧ String.length w = sz)
    as Hmem.
  { intros path Hp w Hw. destruct (Hp w Hw) as [Hin ?].
    by apply elem_of_elements in Hin. }
  unfold main.
  destruct words as [ws0|]; cbn [app] in *;
    rewrite decide_False by (intros Hne; by apply Hne);
    fold g in Ho; subst g ws' ws sz; rewrite Hmp;
    destruct o as [path|].
  - eexists. split; [reflexivity|]. right.
    destruct Ho as (? & ? & ? & ? & ? & Htl). split; [done|].
    exists path. repeat (split; [done|]). by apply Hmem.
  - eexists. split; [reflexivity|]. by left.
  - eexists. split; [reflexivity|]. right.
    destruct Ho as (? & ? & ? & ? & ? & Htl). split; [done|].
    exists path. repeat (split; [done|]). by apply Hmem.
  - eexists. split; [reflexivity|]. by left.
Qed.

Lemma main_answers_witness :
  ∃ log out,
    main lower_ascii upper_ascii 50 ∅ "Cat" "DOG"
      (Some {[ "cat"; "cot"; "cog" ]})
    = Some (log, Ok out).
Proof.
  pose proof (main_answers lower_ascii upper_ascii 50 ∅ "Cat" "DOG"
                (Some {[ "cat"; "cot"; "cog" ]}) eq_refl) as Hmain.
  cbv zeta in Hmain.
  destruct Hmain as (out & Hmain & _); [vm_compute; lia|].
  eexists _, out. exact Hmain.
Defined.

(** X14: called with two words that are equal after lowercasing, [main]
    returns the ladder message over that single word, whatever the case
    mappings and the dictionary, as soon as the loop may run once. *)
Theorem main_same_word
    (lower upper : string → string)
    (fuel : nat) (dictionary : gset string) (start end_ : string)
    (words : option (gset string)) :
  lower start = lower end_ →
  ∃ log,
    main lower upper (S fuel) dictionary start end_ words
    = Some (log, Ok ("Shortest Word Ladder: " +:+ upper (lower start)
                     +:+ " ")).
Proof.
  intros Heq. unfold main, min_path. cbn [min_path_loop].
  rewrite <- Heq.
  destruct words as [ws|];
    rewrite decide_False by (intros Hne; by apply Hne);
    rewrite step_initial, decide_True by done; eexists; reflexivity.
Qed.

Lemma main_same_word_witness :
  ∃ log,
    main lower_ascii upper_ascii 1 ∅ "Cat" "cAT" None
    = Some (log, Ok "Shortest Word Ladder: CAT ").
Proof.
  apply (main_same_word lower_ascii upper_ascii 0 ∅ "Cat" "cAT" None).
  reflexivity.
Defined.

(** X15: among the words of an index built by [__init__] the neighbour
    relation is symmetric, and every such word (the index length not being
    0) is a neighbour of itself. *)
Theorem neighbours_symmetric
    (words : list string) (sz : nat) (v w : string) :
  v ∈ words → w ∈ words →
  (adjacent (Graph_init words sz) v w ↔ adjacent (Graph_init words sz) w v)
  ∧ (String.length v = sz → 0 < sz → adjacent (Graph_init words sz) v v).
Proof.
  intros Hv Hw. rewrite !adjacent_Graph_init, (differing_sym w v),
    differing_refl.
  split; [tauto|]. intros Hlen Hpos. repeat split; (done || lia).
Qed.

Lemma neighbours_symmetric_witness :
  (adjacent (Graph_init ["cat"; "cot"; "dog"] 3) "cat" "cot"
   ↔ adjacent (Graph_init ["cat"; "cot"; "dog"] 3) "cot" "cat")
  ∧ (String.length "cat" = 3 → 0 < 3 →
     adjacent (Graph_init ["cat"; "cot"; "dog"] 3) "cat" "cat").
Proof.
  apply (neighbours_symmetric ["cat"; "cot"; "dog"] 3 "cat" "cot").
  - apply list_elem_of_here.
  - apply list_elem_of_further, list_elem_of_here.
Defined.

(** X16: [min_path] never returns a path to an end word other than the
    start word that is no input word of the index length: the end word has
    to be in the dictionary the index was built from. *)
Theorem min_path_needs_indexed_end
    (words : list string) (sz : nat) (start end_ : string) (fuel : nat)
    (path : list string) :
  start ≠ end_ →
  min_path fuel (Graph_init words sz) start end_ = Some (Ok (Some path)) →
  end_ ∈ words ∧ String.length end_ = sz.
Proof.
  intros Hne (Hhead & Hlast & Hcase)%min_path_chain;
    [|apply adjacent_Graph_init_refl].
  destruct Hcase as [[_ ?]|(_ & Hch & _)]; [done|].
  apply chain_ladder in Hch as [_ Htail]. apply Htail.
  destruct path as [|x path]; [done|]. injection Hhead as ->.
  destruct path as [|y path]; [by injection Hlast|].
  rewrite last_cons_cons in Hlast. by apply last_Some_elem_of in Hlast.
Qed.

Lemma min_path_needs_indexed_end_witness :
  "dog" ∈ ["cat"; "cot"; "cog"; "dog"] ∧ String.length "dog" = 3.
Proof.
  apply (min_path_needs_indexed_end ["cat"; "cot"; "cog"; "dog"] 3
           "cat" "dog" 7 ["cat"; "cot"; "cog"; "dog"]); [done|].
  by vm_compute.
Defined.
